(** * heredity.py: exact inference over a pedigree

    A shallow embedding of [src/2. heredity/heredity.py], the properties
    its specification states about it, and further properties of the code.

    Modelling choices.
    - Python [float] values are modelled twice. The program is first
      embedded over the exact rationals [Qc]: probabilities are added,
      multiplied and divided exactly. The theorems are proved of this
      embedding; where the rounding of binary64 moves a result of the
      program in its last digits, they state that two numbers agree within
      a margin ([close]), not that they are equal. The module [Binary64]
      embeds the numeric part of the program a second time, over binary64
      numbers with every operation rounded; it is evaluated on the inputs
      on which rounding shows.
    - Python [dict]s with string keys are [gmap string _], Python [set]s of
      names are [gset string]; the two fixed-shape inner dictionaries
      ([{2:_,1:_,0:_}] and [{True:_,False:_}]) are records, read and written
      through the integer / boolean key the code uses.
    - Python [int] gene counts are [Z].
    - An exception is the name of its class; a computation that may raise
      returns a [result].
    - A loop over a dictionary or a set visits its elements in the order of
      [map_to_list] or [elements]; with exact arithmetic no result depends
      on that order.
    - [main] is modelled from the loaded [people] to the table it prints;
      reading the file and printing are outside the model, [load_data] is
      modelled on the rows [csv.DictReader] yields. *)

From Stdlib Require Import QArith Qcanon Field Lia Floats.
From stdpp Require Import gmap strings list fin_maps fin_sets.

Open Scope Qc_scope.

(* A decimal literal of a binary64 number stands for the nearest one, as in
   Python. *)
Set Warnings "-inexact-float".

(** ** Exceptions and fallible computations *)

Inductive exception : Type :=
  | Exception (class_name : string).

Definition ZeroDivisionError : exception := Exception "ZeroDivisionError".
Definition KeyError : exception := Exception "KeyError".
Definition UnboundLocalError : exception := Exception "UnboundLocalError".

(** Error classes that only the specification names. *)
Definition DegenerateEvidenceError : exception :=
  Exception "DegenerateEvidenceError".
Definition MalformedPedigreeError : exception :=
  Exception "MalformedPedigreeError".

Inductive result (A : Type) : Type :=
  | Ok (a : A)
  | Raise (e : exception).
Arguments Ok {A} a.
Arguments Raise {A} e.

#[global] Instance result_bind : MBind result := λ A B k r,
  match r with
  | Ok a => k a
  | Raise e => Raise e
  end.

(** A [for] loop whose body may raise. *)
Fixpoint for_each {S X : Type} (body : S → X → result S) (xs : list X) (s : S)
  : result S :=
  match xs with
  | [] => Ok s
  | x :: xs' => s' ← body s x; for_each body xs' s'
  end.

(** ** The probability tables ([PROBS]) *)

Record Probs : Type := {
  gene_2 : Qc; gene_1 : Qc; gene_0 : Qc;
  trait_2_True : Qc; trait_2_False : Qc;
  trait_1_True : Qc; trait_1_False : Qc;
  trait_0_True : Qc; trait_0_False : Qc;
  mutation : Qc
}.

Definition PROBS : Probs := {|
  gene_2 := Q2Qc 0.01; gene_1 := Q2Qc 0.03; gene_0 := Q2Qc 0.96;
  trait_2_True := Q2Qc 0.65; trait_2_False := Q2Qc 0.35;
  trait_1_True := Q2Qc 0.56; trait_1_False := Q2Qc 0.44;
  trait_0_True := Q2Qc 0.01; trait_0_False := Q2Qc 0.99;
  mutation := Q2Qc 0.01
|}.

(** [P["gene"][n]] *)
Definition probs_gene (P : Probs) (n : Z) : result Qc :=
  match n with
  | 2%Z => Ok (gene_2 P)
  | 1%Z => Ok (gene_1 P)
  | 0%Z => Ok (gene_0 P)
  | _ => Raise KeyError
  end.

(** [P["trait"][n][b]] *)
Definition probs_trait (P : Probs) (n : Z) (b : bool) : result Qc :=
  match n with
  | 2%Z => Ok (if b then trait_2_True P else trait_2_False P)
  | 1%Z => Ok (if b then trait_1_True P else trait_1_False P)
  | 0%Z => Ok (if b then trait_0_True P else trait_0_False P)
  | _ => Raise KeyError
  end.

(** ** People *)

Record Person : Type := {
  name : string;
  mother : option string;
  father : option string;
  trait : option bool
}.

(** An assignment: the sets [one_gene], [two_genes] and [have_trait]. *)
Record Assignment : Type := {
  one_gene : gset string;
  two_genes : gset string;
  have_trait : gset string
}.

(** Truth value of a [mother] / [father] field: [None] and the empty string
    are false. *)
Definition recorded (parent : option string) : bool :=
  match parent with
  | Some s => bool_decide (s ≠ "")
  | None => false
  end.

(** The test [data["mother"] and data["father"]], with the two names it
    guards. *)
Definition known_parents (data : Person) : option (string * string) :=
  match mother data, father data with
  | Some m, Some f =>
      if recorded (Some m) && recorded (Some f) then Some (m, f) else None
  | _, _ => None
  end.

(** ** The gene model *)

Definition get_number_of_genes_by_name
    (person : string) (one_gene two_genes : gset string) : Z :=
  if bool_decide (person ∈ two_genes) then 2
  else if bool_decide (person ∈ one_gene) then 1
  else 0.

Definition calculate_probability_of_passing_gene_to_child
    (P : Probs) (number_of_parent_genes : Z) : result Qc :=
  match number_of_parent_genes with
  | 2%Z => Ok (1 - mutation P)
  | 1%Z => Ok (Q2Qc 0.5)
  | 0%Z => Ok (mutation P)
  | _ => Raise UnboundLocalError
  end.

Definition calculate_child_gene_probability
    (P : Probs) (mother_genes father_genes child_number_of_genes : Z)
  : result Qc :=
  probability_of_mothers_gene ←
    calculate_probability_of_passing_gene_to_child P mother_genes;
  probability_of_fathers_gene ←
    calculate_probability_of_passing_gene_to_child P father_genes;
  match child_number_of_genes with
  | 2%Z => Ok (probability_of_mothers_gene * probability_of_fathers_gene)
  | 1%Z => Ok (probability_of_mothers_gene * (1 - probability_of_fathers_gene)
               + probability_of_fathers_gene * (1 - probability_of_mothers_gene))
  | 0%Z => Ok ((1 - probability_of_mothers_gene)
               * (1 - probability_of_fathers_gene))
  | _ => Raise UnboundLocalError
  end.

(** ** [joint_probability] *)

(** The gene probability of one person: the first half of the loop body. *)
Definition gene_probability_of
    (P : Probs) (data : Person) (number_of_genes : Z)
    (one_gene two_genes : gset string) : result Qc :=
  match known_parents data with
  | Some (m, f) =>
      calculate_child_gene_probability P
        (get_number_of_genes_by_name m one_gene two_genes)
        (get_number_of_genes_by_name f one_gene two_genes)
        number_of_genes
  | None => probs_gene P number_of_genes
  end.

(** One iteration of the loop over [people.items()]. *)
Definition joint_probability_step
    (P : Probs) (one_gene two_genes have_trait : gset string)
    (result_probability : Qc) (item : string * Person) : result Qc :=
  let '(name, data) := item in
  let number_of_genes :=
    get_number_of_genes_by_name name one_gene two_genes in
  gene_probability ←
    gene_probability_of P data number_of_genes one_gene two_genes;
  trait_probability ←
    probs_trait P number_of_genes (bool_decide (name ∈ have_trait));
  let probability_for_person := gene_probability * trait_probability in
  Ok (result_probability * probability_for_person).

Definition joint_probability
    (P : Probs) (people : gmap string Person)
    (one_gene two_genes have_trait : gset string) : result Qc :=
  for_each (joint_probability_step P one_gene two_genes have_trait)
           (map_to_list people) 1.

(** ** [powerset] *)

(** [itertools.combinations(l, r)]: the sublists of [l] of length [r], in
    lexicographic order of positions. *)
Fixpoint combinations {A : Type} (l : list A) (r : nat) : list (list A) :=
  match r, l with
  | O, _ => [[]]
  | S _, [] => []
  | S r', x :: l' => (cons x <$> combinations l' r') ++ combinations l' r
  end.

Definition powerset (s : gset string) : list (gset string) :=
  let s := elements s in
  list_to_set <$> (r ← seq 0 (length s + 1); combinations s r).

(** ** The accumulator: [update] and [normalize] *)

(** [probabilities[person]]: the dictionaries ["gene"] and ["trait"]. *)
Record Distribution : Type := {
  d_gene_2 : Qc; d_gene_1 : Qc; d_gene_0 : Qc;
  d_trait_True : Qc; d_trait_False : Qc
}.

(** [d["gene"][n] += p] *)
Definition add_gene (d : Distribution) (n : Z) (p : Qc) : result Distribution :=
  match n with
  | 2%Z => Ok {| d_gene_2 := d_gene_2 d + p; d_gene_1 := d_gene_1 d;
                 d_gene_0 := d_gene_0 d;
                 d_trait_True := d_trait_True d;
                 d_trait_False := d_trait_False d |}
  | 1%Z => Ok {| d_gene_2 := d_gene_2 d; d_gene_1 := d_gene_1 d + p;
                 d_gene_0 := d_gene_0 d;
                 d_trait_True := d_trait_True d;
                 d_trait_False := d_trait_False d |}
  | 0%Z => Ok {| d_gene_2 := d_gene_2 d; d_gene_1 := d_gene_1 d;
                 d_gene_0 := d_gene_0 d + p;
                 d_trait_True := d_trait_True d;
                 d_trait_False := d_trait_False d |}
  | _ => Raise KeyError
  end.

(** [d["trait"][b] += p] *)
Definition add_trait (d : Distribution) (b : bool) (p : Qc) : Distribution :=
  if b then
    {| d_gene_2 := d_gene_2 d; d_gene_1 := d_gene_1 d; d_gene_0 := d_gene_0 d;
       d_trait_True := d_trait_True d + p;
       d_trait_False := d_trait_False d |}
  else
    {| d_gene_2 := d_gene_2 d; d_gene_1 := d_gene_1 d; d_gene_0 := d_gene_0 d;
       d_trait_True := d_trait_True d;
       d_trait_False := d_trait_False d + p |}.

(** [probabilities[person]] *)
Definition get_item {V : Type} (m : gmap string V) (k : string) : result V :=
  match m !! k with
  | Some v => Ok v
  | None => Raise KeyError
  end.

(** [probabilities.keys()] *)
Definition keys {V : Type} (m : gmap string V) : list string :=
  (map_to_list m).*1.

Definition update_step
    (one_gene two_genes have_trait : gset string) (p : Qc)
    (probabilities : gmap string Distribution) (person : string)
  : result (gmap string Distribution) :=
  d ← get_item probabilities person;
  let number_of_genes :=
    get_number_of_genes_by_name person one_gene two_genes in
  d ← add_gene d number_of_genes p;
  let d := add_trait d (bool_decide (person ∈ have_trait)) p in
  Ok (<[person := d]> probabilities).

Definition update
    (probabilities : gmap string Distribution)
    (one_gene two_genes have_trait : gset string) (p : Qc)
  : result (gmap string Distribution) :=
  for_each (update_step one_gene two_genes have_trait p)
           (keys probabilities) probabilities.

(** [x / y] on numbers. *)
Definition divide (x y : Qc) : result Qc :=
  if bool_decide (y = 0) then Raise ZeroDivisionError else Ok (x / y).

Definition normalize_step
    (probabilities : gmap string Distribution) (person : string)
  : result (gmap string Distribution) :=
  d ← get_item probabilities person;
  gene_alpha ← divide 1 (d_gene_2 d + d_gene_1 d + d_gene_0 d);
  let d := {| d_gene_2 := d_gene_2 d * gene_alpha;
              d_gene_1 := d_gene_1 d * gene_alpha;
              d_gene_0 := d_gene_0 d * gene_alpha;
              d_trait_True := d_trait_True d;
              d_trait_False := d_trait_False d |} in
  trait_alpha ← divide 1 (d_trait_True d + d_trait_False d);
  let d := {| d_gene_2 := d_gene_2 d;
              d_gene_1 := d_gene_1 d;
              d_gene_0 := d_gene_0 d;
              d_trait_True := d_trait_True d * trait_alpha;
              d_trait_False := d_trait_False d * trait_alpha |} in
  Ok (<[person := d]> probabilities).

Definition normalize (probabilities : gmap string Distribution)
  : result (gmap string Distribution) :=
  for_each normalize_step (keys probabilities) probabilities.

(** ** [main]: enumeration, accumulation, normalization *)

Definition initial_distribution : Distribution :=
  {| d_gene_2 := 0; d_gene_1 := 0; d_gene_0 := 0;
     d_trait_True := 0; d_trait_False := 0 |}.

(** The [any(...)] test of [main]. [names] is [set(people)], so the lookup
    [people[person]] always finds the person. *)
Definition fails_evidence
    (people : gmap string Person) (names have_trait : gset string) : bool :=
  existsb
    (λ person,
       match people !! person with
       | Some data =>
           match trait data with
           | Some t => bool_decide (t ≠ bool_decide (person ∈ have_trait))
           | None => false
           end
       | None => false
       end)
    (elements names).

(** The three nested loops of [main], up to the call of [normalize]. *)
Definition accumulate (P : Probs) (people : gmap string Person)
  : result (gmap string Distribution) :=
  let probabilities := (λ _, initial_distribution) <$> people in
  let names := dom people in
  for_each
    (λ probabilities have_trait,
       if fails_evidence people names have_trait then Ok probabilities
       else
         for_each
           (λ probabilities one_gene,
              for_each
                (λ probabilities two_genes,
                   p ← joint_probability P people one_gene two_genes have_trait;
                   update probabilities one_gene two_genes have_trait p)
                (powerset (names ∖ one_gene)) probabilities)
           (powerset names) probabilities)
    (powerset names) probabilities.

(** [main] from the loaded [people] to the table it prints. *)
Definition main (P : Probs) (people : gmap string Person)
  : result (gmap string Distribution) :=
  probabilities ← accumulate P people;
  normalize probabilities.

(** ** [load_data] *)

(** A row of the CSV file, as [csv.DictReader] yields it. *)
Record Row : Type := {
  row_name : string;
  row_mother : string;
  row_father : string;
  row_trait : string
}.

(** [x or None] *)
Definition or_None (x : string) : option string :=
  if bool_decide (x = "") then None else Some x.

Definition person_of_row (row : Row) : Person :=
  {| name := row_name row;
     mother := or_None (row_mother row);
     father := or_None (row_father row);
     trait := if bool_decide (row_trait row = "1") then Some true
              else if bool_decide (row_trait row = "0") then Some false
              else None |}.

(** [load_data] on the rows read from the file. *)
Definition load_data (rows : list Row) : result (gmap string Person) :=
  for_each
    (λ data row, Ok (<[row_name row := person_of_row row]> data))
    rows ∅.

(** ** The program on binary64 numbers

    The definitions above compute with exact rationals. [Binary64] repeats
    the numeric part of the program on IEEE 754 binary64 numbers, the values
    of Python's [float]: every addition, subtraction, multiplication and
    division is the rounded one, done in the order of the source. The gene
    counts, the sets of names, [get_number_of_genes_by_name], [known_parents]
    and [combinations] are the ones above.

    With rounding the order of a loop matters. [people] is the list of the
    items of the dictionary in insertion order, the order of
    [people.items()]. The order in which Python iterates a set of strings
    depends on the hashes of the process; here it is the parameter
    [listing]. *)

Module Binary64.

Local Open Scope float_scope.

Record Probs : Type := {
  gene_2 : float; gene_1 : float; gene_0 : float;
  trait_2_True : float; trait_2_False : float;
  trait_1_True : float; trait_1_False : float;
  trait_0_True : float; trait_0_False : float;
  mutation : float
}.

Definition PROBS : Probs := {|
  gene_2 := 0.01; gene_1 := 0.03; gene_0 := 0.96;
  trait_2_True := 0.65; trait_2_False := 0.35;
  trait_1_True := 0.56; trait_1_False := 0.44;
  trait_0_True := 0.01; trait_0_False := 0.99;
  mutation := 0.01
|}.

(** [P["gene"][n]] *)
Definition probs_gene (P : Probs) (n : Z) : result float :=
  match n with
  | 2%Z => Ok (gene_2 P)
  | 1%Z => Ok (gene_1 P)
  | 0%Z => Ok (gene_0 P)
  | _ => Raise KeyError
  end.

(** [P["trait"][n][b]] *)
Definition probs_trait (P : Probs) (n : Z) (b : bool) : result float :=
  match n with
  | 2%Z => Ok (if b then trait_2_True P else trait_2_False P)
  | 1%Z => Ok (if b then trait_1_True P else trait_1_False P)
  | 0%Z => Ok (if b then trait_0_True P else trait_0_False P)
  | _ => Raise KeyError
  end.

Definition calculate_probability_of_passing_gene_to_child
    (P : Probs) (number_of_parent_genes : Z) : result float :=
  match number_of_parent_genes with
  | 2%Z => Ok (1 - mutation P)
  | 1%Z => Ok 0.5
  | 0%Z => Ok (mutation P)
  | _ => Raise UnboundLocalError
  end.

Definition calculate_child_gene_probability
    (P : Probs) (mother_genes father_genes child_number_of_genes : Z)
  : result float :=
  probability_of_mothers_gene ←
    calculate_probability_of_passing_gene_to_child P mother_genes;
  probability_of_fathers_gene ←
    calculate_probability_of_passing_gene_to_child P father_genes;
  match child_number_of_genes with
  | 2%Z => Ok (probability_of_mothers_gene * probability_of_fathers_gene)
  | 1%Z => Ok (probability_of_mothers_gene * (1 - probability_of_fathers_gene)
               + probability_of_fathers_gene * (1 - probability_of_mothers_gene))
  | 0%Z => Ok ((1 - probability_of_mothers_gene)
               * (1 - probability_of_fathers_gene))
  | _ => Raise UnboundLocalError
  end.

(** One iteration of the loop over [people.items()]. *)
Definition joint_probability_step
    (P : Probs) (one_gene two_genes have_trait : gset string)
    (result_probability : float) (item : string * Person) : result float :=
  let '(name, data) := item in
  let number_of_genes :=
    get_number_of_genes_by_name name one_gene two_genes in
  gene_probability ←
    match known_parents data with
    | Some (m, f) =>
        calculate_child_gene_probability P
          (get_number_of_genes_by_name m one_gene two_genes)
          (get_number_of_genes_by_name f one_gene two_genes)
          number_of_genes
    | None => probs_gene P number_of_genes
    end;
  trait_probability ←
    probs_trait P number_of_genes (bool_decide (name ∈ have_trait));
  let probability_for_person := gene_probability * trait_probability in
  Ok (result_probability * probability_for_person).

Definition joint_probability
    (P : Probs) (people : list (string * Person))
    (one_gene two_genes have_trait : gset string) : result float :=
  for_each (joint_probability_step P one_gene two_genes have_trait) people 1.

(** [powerset] on the list [list(s)]. *)
Definition powerset (s : list string) : list (gset string) :=
  list_to_set <$> (r ← seq 0 (length s + 1); combinations s r).

(** [probabilities[person]]: the dictionaries ["gene"] and ["trait"]. *)
Record Distribution : Type := {
  d_gene_2 : float; d_gene_1 : float; d_gene_0 : float;
  d_trait_True : float; d_trait_False : float
}.

(** [d["gene"][n] += p] *)
Definition add_gene (d : Distribution) (n : Z) (p : float)
  : result Distribution :=
  match n with
  | 2%Z => Ok {| d_gene_2 := d_gene_2 d + p; d_gene_1 := d_gene_1 d;
                 d_gene_0 := d_gene_0 d;
                 d_trait_True := d_trait_True d;
                 d_trait_False := d_trait_False d |}
  | 1%Z => Ok {| d_gene_2 := d_gene_2 d; d_gene_1 := d_gene_1 d + p;
                 d_gene_0 := d_gene_0 d;
                 d_trait_True := d_trait_True d;
                 d_trait_False := d_trait_False d |}
  | 0%Z => Ok {| d_gene_2 := d_gene_2 d; d_gene_1 := d_gene_1 d;
                 d_gene_0 := d_gene_0 d + p;
                 d_trait_True := d_trait_True d;
                 d_trait_False := d_trait_False d |}
  | _ => Raise KeyError
  end.

(** [d["trait"][b] += p] *)
Definition add_trait (d : Distribution) (b : bool) (p : float) : Distribution :=
  if b then
    {| d_gene_2 := d_gene_2 d; d_gene_1 := d_gene_1 d; d_gene_0 := d_gene_0 d;
       d_trait_True := d_trait_True d + p;
       d_trait_False := d_trait_False d |}
  else
    {| d_gene_2 := d_gene_2 d; d_gene_1 := d_gene_1 d; d_gene_0 := d_gene_0 d;
       d_trait_True := d_trait_True d;
       d_trait_False := d_trait_False d + p |}.

Definition update_step
    (one_gene two_genes have_trait : gset string) (p : float)
    (probabilities : gmap string Distribution) (person : string)
  : result (gmap string Distribution) :=
  d ← get_item probabilities person;
  let number_of_genes :=
    get_number_of_genes_by_name person one_gene two_genes in
  d ← add_gene d number_of_genes p;
  let d := add_trait d (bool_decide (person ∈ have_trait)) p in
  Ok (<[person := d]> probabilities).

(** Each step rewrites the entry of its own person only, so the order of
    [probabilities.keys()] has no effect on the table. *)
Definition update
    (probabilities : gmap string Distribution)
    (one_gene two_genes have_trait : gset string) (p : float)
  : result (gmap string Distribution) :=
  for_each (update_step one_gene two_genes have_trait p)
           (keys probabilities) probabilities.

(** [x / y]: Python raises when [y] compares equal to zero, elsewhere the
    quotient is the rounded one. *)
Definition divide (x y : float) : result float :=
  if PrimFloat.eqb y 0 then Raise ZeroDivisionError else Ok (x / y).

Definition normalize_step
    (probabilities : gmap string Distribution) (person : string)
  : result (gmap string Distribution) :=
  d ← get_item probabilities person;
  gene_alpha ← divide 1 (d_gene_2 d + d_gene_1 d + d_gene_0 d);
  let d := {| d_gene_2 := d_gene_2 d * gene_alpha;
              d_gene_1 := d_gene_1 d * gene_alpha;
              d_gene_0 := d_gene_0 d * gene_alpha;
              d_trait_True := d_trait_True d;
              d_trait_False := d_trait_False d |} in
  trait_alpha ← divide 1 (d_trait_True d + d_trait_False d);
  let d := {| d_gene_2 := d_gene_2 d;
              d_gene_1 := d_gene_1 d;
              d_gene_0 := d_gene_0 d;
              d_trait_True := d_trait_True d * trait_alpha;
              d_trait_False := d_trait_False d * trait_alpha |} in
  Ok (<[person := d]> probabilities).

Definition normalize (probabilities : gmap string Distribution)
  : result (gmap string Distribution) :=
  for_each normalize_step (keys probabilities) probabilities.

Definition initial_distribution : Distribution :=
  {| d_gene_2 := 0; d_gene_1 := 0; d_gene_0 := 0;
     d_trait_True := 0; d_trait_False := 0 |}.

(** The [any(...)] test of [main]. [names] is [set(people)], so the lookup
    [people[person]] always finds the person. *)
Definition fails_evidence
    (people : gmap string Person) (names : list string)
    (have_trait : gset string) : bool :=
  existsb
    (λ person,
       match people !! person with
       | Some data =>
           match trait data with
           | Some t => bool_decide (t ≠ bool_decide (person ∈ have_trait))
           | None => false
           end
       | None => false
       end)
    names.

(** The three nested loops of [main], up to the call of [normalize]. *)
Definition accumulate
    (listing : gset string → list string)
    (P : Probs) (people : list (string * Person))
  : result (gmap string Distribution) :=
  let probabilities : gmap string Distribution :=
    list_to_map ((λ item : string * Person, (item.1, initial_distribution))
                   <$> people) in
  let names : gset string := list_to_set people.*1 in
  for_each
    (λ probabilities have_trait,
       if fails_evidence (list_to_map people) (listing names) have_trait
       then Ok probabilities
       else
         for_each
           (λ probabilities one_gene,
              for_each
                (λ probabilities two_genes,
                   p ← joint_probability P people one_gene two_genes have_trait;
                   update probabilities one_gene two_genes have_trait p)
                (powerset (listing (names ∖ one_gene))) probabilities)
           (powerset (listing names)) probabilities)
    (powerset (listing names)) probabilities.

(** [main] from the loaded [people] to the table it prints. *)
Definition main
    (listing : gset string → list string)
    (P : Probs) (people : list (string * Person))
  : result (gmap string Distribution) :=
  probabilities ← accumulate listing P people;
  normalize probabilities.


End Binary64.

(** * Definitions for the properties *)

(** ** Sums and products of lists of numbers *)

Definition product (l : list Qc) : Qc := foldr Qcmult 1 l.
Definition total (l : list Qc) : Qc := foldr Qcplus 0 l.

Arguments product : simpl never.
Arguments total : simpl never.

(** ** Values of the tables and of the gene model on the counts 0, 1, 2 *)

Definition gene_count (a : Assignment) (person : string) : Z :=
  get_number_of_genes_by_name person (one_gene a) (two_genes a).

Definition prior_value (P : Probs) (n : Z) : Qc :=
  match n with
  | 2%Z => gene_2 P
  | 1%Z => gene_1 P
  | _ => gene_0 P
  end.

Definition trait_value (P : Probs) (n : Z) (b : bool) : Qc :=
  match n with
  | 2%Z => if b then trait_2_True P else trait_2_False P
  | 1%Z => if b then trait_1_True P else trait_1_False P
  | _ => if b then trait_0_True P else trait_0_False P
  end.

Definition pass_value (P : Probs) (n : Z) : Qc :=
  match n with
  | 2%Z => 1 - mutation P
  | 1%Z => Q2Qc 0.5
  | _ => mutation P
  end.

Definition child_value (P : Probs) (mother_genes father_genes n : Z) : Qc :=
  let pm := pass_value P mother_genes in
  let pf := pass_value P father_genes in
  match n with
  | 2%Z => pm * pf
  | 1%Z => pm * (1 - pf) + pf * (1 - pm)
  | _ => (1 - pm) * (1 - pf)
  end.

(** The factor one person contributes to the joint probability. *)
Definition gene_value (P : Probs) (a : Assignment) (person : string)
    (data : Person) : Qc :=
  match known_parents data with
  | Some (m, f) =>
      child_value P (gene_count a m) (gene_count a f) (gene_count a person)
  | None => prior_value P (gene_count a person)
  end.

Definition person_value (P : Probs) (a : Assignment)
    (item : string * Person) : Qc :=
  gene_value P a item.1 item.2
  * trait_value P (gene_count a item.1) (bool_decide (item.1 ∈ have_trait a)).

Definition joint_value (P : Probs) (people : gmap string Person)
    (a : Assignment) : Qc :=
  product (person_value P a <$> map_to_list people).

Definition is_count (n : Z) : Prop := n = 0%Z ∨ n = 1%Z ∨ n = 2%Z.

(** ** The joint probability, in the words of the specification *)

Module Spec.

(** The unconditional gene-count prior. *)
Definition unconditional_prior (count : Z) : Qc :=
  match count with
  | 0%Z => Q2Qc 0.96
  | 1%Z => Q2Qc 0.03
  | _ => Q2Qc 0.01
  end.

(** The trait-conditional model. *)
Definition trait_conditional (count : Z) (has_trait : bool) : Qc :=
  match count with
  | 2%Z => if has_trait then Q2Qc 0.65 else Q2Qc 0.35
  | 1%Z => if has_trait then Q2Qc 0.56 else Q2Qc 0.44
  | _ => if has_trait then Q2Qc 0.01 else Q2Qc 0.99
  end.

(** The gene-transmission model, with the default mutation rate. *)
Definition mutation_rate : Qc := Q2Qc 0.01.

Definition transmits (parent_count : Z) : Qc :=
  match parent_count with
  | 2%Z => 1 - mutation_rate
  | 1%Z => Q2Qc 0.5
  | _ => mutation_rate
  end.

Definition from_parents (mother_count father_count count : Z) : Qc :=
  let pm := transmits mother_count in
  let pf := transmits father_count in
  match count with
  | 2%Z => pm * pf
  | 1%Z => pm * (1 - pf) + (1 - pm) * pf
  | _ => (1 - pm) * (1 - pf)
  end.

(** The gene count an assignment gives a person. *)
Definition assigned_count (a : Assignment) (person : string) : Z :=
  if bool_decide (person ∈ two_genes a) then 2
  else if bool_decide (person ∈ one_gene a) then 1
  else 0.

(** The gene count of a parent reference; a missing parent has no copy. *)
Definition parent_count (a : Assignment) (parent : option string) : Z :=
  match parent with
  | Some p => assigned_count a p
  | None => 0
  end.

(** (i): the prior for a person with no recorded parents, otherwise the
    value derived from both parents' assigned gene counts. *)
Definition gene_probability (a : Assignment) (person : string)
    (data : Person) : Qc :=
  if negb (recorded (mother data)) && negb (recorded (father data))
  then unconditional_prior (assigned_count a person)
  else from_parents (parent_count a (mother data))
                    (parent_count a (father data))
                    (assigned_count a person).

(** (ii): the probability of the assigned trait value given the assigned
    gene count. *)
Definition trait_probability (a : Assignment) (person : string) : Qc :=
  trait_conditional (assigned_count a person)
                    (bool_decide (person ∈ have_trait a)).

(** The product over all persons of (i) times (ii). *)
Definition joint (people : gmap string Person) (a : Assignment) : Qc :=
  product ((λ item : string * Person,
              gene_probability a item.1 item.2 * trait_probability a item.1)
           <$> map_to_list people).

End Spec.

(** Every person has both parents recorded or neither (the invariant of the
    data model, and what [load_data] assumes of its file). *)
Definition parents_both_or_neither (people : gmap string Person) : Prop :=
  map_Forall (λ _ data, recorded (mother data) = recorded (father data)) people.

(** The family of the course's example: Harry, child of Lily and James. *)
Definition family : gmap string Person :=
  {[ "Harry" := {| name := "Harry"; mother := Some "Lily";
                   father := Some "James"; trait := None |};
     "James" := {| name := "James"; mother := None; father := None;
                   trait := Some true |};
     "Lily" := {| name := "Lily"; mother := None; father := None;
                  trait := Some false |} ]}.

(** A probability as [main] prints it: [f"{p:.4f}"], in ten-thousandths. *)
Definition four_decimals (p : Qc) : Z :=
  ((2 * 10000 * Qnum p + Zpos (Qden p)) / (2 * Zpos (Qden p)))%Z.

(** The five numbers [main] prints for a person: the gene distribution for
    2, 1 and 0 copies, then the trait distribution for True and False. *)
Definition printed (r : result (gmap string Distribution)) (person : string)
  : option (Z * Z * Z * Z * Z) :=
  match r with
  | Ok probabilities =>
      (λ d, (four_decimals (d_gene_2 d), four_decimals (d_gene_1 d),
             four_decimals (d_gene_0 d), four_decimals (d_trait_True d),
             four_decimals (d_trait_False d)))
      <$> probabilities !! person
  | Raise _ => None
  end.

(** ** A person with exactly one recorded parent *)

Definition without_parents (data : Person) : Person :=
  {| name := name data; mother := None; father := None; trait := trait data |}.

(** The factor of an item in the joint probability when [person] takes the
    unconditional prior of the assigned count; the factors of the other
    persons are the ones of the code. *)
Definition factor_with_prior
    (person : string) (a : Assignment) (item : string * Person) : Qc :=
  if decide (item.1 = person)
  then Spec.unconditional_prior (Spec.assigned_count a person)
       * Spec.trait_conditional (Spec.assigned_count a person)
           (bool_decide (person ∈ have_trait a))
  else person_value PROBS a item.

(** Harry with his mother recorded and his father not, and Lily. *)
Definition harry_one_parent : Person :=
  {| name := "Harry"; mother := Some "Lily"; father := None; trait := None |}.

Definition family_one_parent : gmap string Person :=
  {[ "Harry" := harry_one_parent;
     "Lily" := {| name := "Lily"; mother := None; father := None;
                  trait := None |} ]}.

(** ** Loops that rewrite the entry of each key *)

(** The shape shared by the loop bodies of [update] and [normalize]. *)
Definition keyed_step {V : Type} (f : string → V → result V)
    (m : gmap string V) (k : string) : result (gmap string V) :=
  d ← get_item m k;
  d' ← f k d;
  Ok (<[k := d']> m).

(** ** [normalize] *)

Definition gene_total (d : Distribution) : Qc :=
  d_gene_2 d + d_gene_1 d + d_gene_0 d.

Definition trait_total (d : Distribution) : Qc :=
  d_trait_True d + d_trait_False d.

(** What [normalize] does to one person's entry. *)
Definition normalize_entry (d : Distribution) : result Distribution :=
  gene_alpha ← divide 1 (gene_total d);
  trait_alpha ← divide 1 (trait_total d);
  Ok {| d_gene_2 := d_gene_2 d * gene_alpha;
        d_gene_1 := d_gene_1 d * gene_alpha;
        d_gene_0 := d_gene_0 d * gene_alpha;
        d_trait_True := d_trait_True d * trait_alpha;
        d_trait_False := d_trait_False d * trait_alpha |}.

Definition normalized (d : Distribution) : Distribution :=
  {| d_gene_2 := d_gene_2 d * (1 / gene_total d);
     d_gene_1 := d_gene_1 d * (1 / gene_total d);
     d_gene_0 := d_gene_0 d * (1 / gene_total d);
     d_trait_True := d_trait_True d * (1 / trait_total d);
     d_trait_False := d_trait_False d * (1 / trait_total d) |}.

(** ** Numbers that agree up to rounding *)






(** ** Inputs on which rounding shows *)











(** ** [load_data] *)

(** The last row of the file that carries a given name. *)
Definition last_row_named (rows : list Row) (n : string) : option Row :=
  last (filter (λ row, row_name row = n) rows).

(** ** [powerset]: every subset, once *)

(** The argument of [list_to_set] in [powerset]. *)
Definition sublists {A : Type} (l : list A) : list (list A) :=
  r ← seq 0 (length l + 1); combinations l r.

(** ** The enumeration of [main] *)

(** The assignments the three nested loops of [main] visit, in order. *)
Definition enumeration (people : gmap string Person) : list Assignment :=
  let names := dom people in
  ht ← powerset names;
  if fails_evidence people names ht then []
  else
    og ← powerset names;
    tg ← powerset (names ∖ og);
    [ {| one_gene := og; two_genes := tg; have_trait := ht |} ].

(** The body of the innermost loop. *)
Definition accumulate_step (P : Probs) (people : gmap string Person)
    (probabilities : gmap string Distribution) (a : Assignment)
  : result (gmap string Distribution) :=
  p ← joint_probability P people (one_gene a) (two_genes a) (have_trait a);
  update probabilities (one_gene a) (two_genes a) (have_trait a) p.

(** ** [update] *)

Definition add_gene_value (d : Distribution) (n : Z) (p : Qc) : Distribution :=
  match n with
  | 2%Z => {| d_gene_2 := d_gene_2 d + p; d_gene_1 := d_gene_1 d;
              d_gene_0 := d_gene_0 d;
              d_trait_True := d_trait_True d;
              d_trait_False := d_trait_False d |}
  | 1%Z => {| d_gene_2 := d_gene_2 d; d_gene_1 := d_gene_1 d + p;
              d_gene_0 := d_gene_0 d;
              d_trait_True := d_trait_True d;
              d_trait_False := d_trait_False d |}
  | _ => {| d_gene_2 := d_gene_2 d; d_gene_1 := d_gene_1 d;
            d_gene_0 := d_gene_0 d + p;
            d_trait_True := d_trait_True d;
            d_trait_False := d_trait_False d |}
  end.

(** What [update] does to one person's entry. *)
Definition bump (a : Assignment) (p : Qc) (person : string)
    (d : Distribution) : Distribution :=
  add_trait (add_gene_value d (gene_count a person) p)
            (bool_decide (person ∈ have_trait a)) p.

(** ** The accumulated totals are marginal sums *)

(** The entry of a person after the assignments of [L] have been added. *)
Definition accumulated (P : Probs) (people : gmap string Person)
    (L : list Assignment) (person : string) (d : Distribution)
  : Distribution :=
  foldl (λ d a, bump a (joint_value P people a) person d) d L.

(** The sum of the joint probabilities of the assignments of [L] that give
    [person] the gene count [n], respectively the trait value [b]. *)
Definition gene_marginal (P : Probs) (people : gmap string Person)
    (L : list Assignment) (person : string) (n : Z) : Qc :=
  total (joint_value P people <$> filter (λ a, gene_count a person = n) L).

Definition trait_marginal (P : Probs) (people : gmap string Person)
    (L : list Assignment) (person : string) (b : bool) : Qc :=
  total (joint_value P people
         <$> filter (λ a, bool_decide (person ∈ have_trait a) = b) L).

Definition marginals (P : Probs) (people : gmap string Person)
    (L : list Assignment) (person : string) : Distribution :=
  {| d_gene_2 := gene_marginal P people L person 2;
     d_gene_1 := gene_marginal P people L person 1;
     d_gene_0 := gene_marginal P people L person 0;
     d_trait_True := trait_marginal P people L person true;
     d_trait_False := trait_marginal P people L person false |}.

(** ** The enumeration visits every consistent assignment once *)

(** [have_trait] agrees with every observed trait. *)
Definition respects_evidence (people : gmap string Person)
    (have_trait : gset string) : Prop :=
  ∀ person data t,
    people !! person = Some data → trait data = Some t →
    t = bool_decide (person ∈ have_trait).

(** An assignment over the population that agrees with the evidence: the
    three sets hold persons of the pedigree, nobody has both one and two
    copies, and a person with an observed trait is in [have_trait] exactly
    when the trait was observed present. *)
Definition consistent (people : gmap string Person) (a : Assignment) : Prop :=
  one_gene a ⊆ dom people
  ∧ two_genes a ⊆ dom people
  ∧ one_gene a ## two_genes a
  ∧ have_trait a ⊆ dom people
  ∧ respects_evidence people (have_trait a).

(** ** The totals of a person's two distributions *)

(** The sum of the joint probabilities of all the assignments of [L]. *)
Definition evidence_probability (P : Probs) (people : gmap string Person)
    (L : list Assignment) : Qc :=
  total (joint_value P people <$> L).

(** ** Some assignment always agrees with the evidence *)

Definition observed_with_trait (people : gmap string Person) : gset string :=
  dom (filter (λ item : string * Person, trait item.2 = Some true) people).

(** ** A single person observed with the trait *)

Definition alone_with_trait (n : string) : gmap string Person :=
  {[ n := {| name := n; mother := None; father := None;
             trait := Some true |} ]}.

(** ** The assignments, person by person *)

(** The six values of one person: a gene count and a trait value. *)
Definition choices : list (Z * bool) :=
  [ (0%Z, false); (0%Z, true); (1%Z, false); (1%Z, true);
    (2%Z, false); (2%Z, true) ].

(** Give person [n] the gene count [c.1] and the trait value [c.2]. *)
Definition assign (n : string) (c : Z * bool) (a : Assignment) : Assignment :=
  {| one_gene := if decide (c.1 = 1%Z) then {[n]} ∪ one_gene a else one_gene a;
     two_genes :=
       if decide (c.1 = 2%Z) then {[n]} ∪ two_genes a else two_genes a;
     have_trait := if c.2 then {[n]} ∪ have_trait a else have_trait a |}.


(** The three sets of [a] hold persons of [s] only, and nobody has both one
    and two copies. *)
Definition over (s : gset string) (a : Assignment) : Prop :=
  one_gene a ⊆ s ∧ two_genes a ⊆ s ∧ have_trait a ⊆ s
  ∧ one_gene a ## two_genes a.

(** Take person [n] out of the three sets. *)
Definition unassign (n : string) (a : Assignment) : Assignment :=
  {| one_gene := one_gene a ∖ {[n]};
     two_genes := two_genes a ∖ {[n]};
     have_trait := have_trait a ∖ {[n]} |}.

(** ** Summing a person out *)





(** ** Alleles *)












(** ** Persons as pairs of alleles *)







(** ** Children: from gene counts to alleles *)






(** ** The children's total does not depend on the other persons *)


(** ** From assignments to counts *)





(** ** Persons with and without known parents *)



(** ** Definitions for the further properties *)


(** The tables of [PROBS], with the trait impossible whatever the count. *)
Definition PROBS_trait_impossible : Probs := {|
  gene_2 := Q2Qc 0.01; gene_1 := Q2Qc 0.03; gene_0 := Q2Qc 0.96;
  trait_2_True := 0; trait_2_False := 1;
  trait_1_True := 0; trait_1_False := 1;
  trait_0_True := 0; trait_0_False := 1;
  mutation := Q2Qc 0.01
|}.




(** The values of a person that agree with what is observed of the person:
    all six when the trait is not observed, otherwise the three with the
    observed trait value. *)
Definition choices_of (d : Person) : list (Z * bool) :=
  filter (λ c, default c.2 (trait d) = c.2) choices.

(** The assignments of [L], each with the values of one more person. *)
Definition extensions (z : string) (dz : Person) (L : list Assignment)
  : list Assignment :=
  a ← L; c ← choices_of dz; [assign z c a].


(** The person with the mother and the father exchanged. *)
Definition swap_parents (d : Person) : Person :=
  {| name := name d; mother := father d; father := mother d;
     trait := trait d |}.

(** * Properties *)

(** ** Loops *)

Lemma for_each_cons {S X : Type} (body : S → X → result S) x xs s :
  for_each body (x :: xs) s = s' ← body s x; for_each body xs s'.
Proof. reflexivity. Qed.

(** ** Sums and products of lists of numbers *)

Lemma product_nil : product [] = 1.
Proof. reflexivity. Qed.

Lemma product_cons x l : product (x :: l) = x * product l.
Proof. reflexivity. Qed.

Lemma total_nil : total [] = 0.
Proof. reflexivity. Qed.

Lemma total_cons x l : total (x :: l) = x + total l.
Proof. reflexivity. Qed.

(** ** Numbers that agree up to rounding *)






(** ** Values of the tables and of the gene model on the counts 0, 1, 2 *)

Lemma get_number_of_genes_by_name_count person one two :
  is_count (get_number_of_genes_by_name person one two).
Proof.
  unfold is_count, get_number_of_genes_by_name.
  repeat case_bool_decide; auto.
Qed.

Lemma gene_count_count a person : is_count (gene_count a person).
Proof. apply get_number_of_genes_by_name_count. Qed.

Ltac count_cases H :=
  destruct H as [-> | [-> | ->]].

Lemma probs_gene_count P n : is_count n → probs_gene P n = Ok (prior_value P n).
Proof. intros H; count_cases H; reflexivity. Qed.

Lemma probs_trait_count P n b :
  is_count n → probs_trait P n b = Ok (trait_value P n b).
Proof. intros H; count_cases H; reflexivity. Qed.

Lemma passing_count P n :
  is_count n →
  calculate_probability_of_passing_gene_to_child P n = Ok (pass_value P n).
Proof. intros H; count_cases H; reflexivity. Qed.

Lemma child_count P mg fg n :
  is_count mg → is_count fg → is_count n →
  calculate_child_gene_probability P mg fg n = Ok (child_value P mg fg n).
Proof.
  intros Hm Hf Hn. unfold calculate_child_gene_probability.
  rewrite !passing_count by done. simpl.
  count_cases Hn; reflexivity.
Qed.

Lemma gene_probability_of_count P data a person :
  gene_probability_of P data (gene_count a person) (one_gene a) (two_genes a)
  = Ok (gene_value P a person data).
Proof.
  unfold gene_probability_of, gene_value.
  destruct (known_parents data) as [[m f]|].
  - apply child_count; apply get_number_of_genes_by_name_count.
  - apply probs_gene_count, gene_count_count.
Qed.

Lemma joint_probability_step_ok P a acc item :
  joint_probability_step P (one_gene a) (two_genes a) (have_trait a) acc item
  = Ok (acc * person_value P a item).
Proof.
  destruct item as [person data]. unfold joint_probability_step.
  change (get_number_of_genes_by_name person (one_gene a) (two_genes a))
    with (gene_count a person).
  rewrite gene_probability_of_count. simpl.
  rewrite probs_trait_count by apply gene_count_count. reflexivity.
Qed.

Lemma joint_probability_loop P a items acc :
  for_each (joint_probability_step P (one_gene a) (two_genes a) (have_trait a))
           items acc
  = Ok (acc * product (person_value P a <$> items)).
Proof.
  revert acc. induction items as [|item items IH]; intros acc.
  - simpl. rewrite product_nil. f_equal. ring.
  - rewrite fmap_cons, product_cons. simpl.
    rewrite joint_probability_step_ok. simpl. rewrite IH. f_equal. ring.
Qed.

(** [joint_probability] never raises: it returns the product of the persons'
    factors. *)
Lemma joint_probability_value P people a :
  joint_probability P people (one_gene a) (two_genes a) (have_trait a)
  = Ok (joint_value P people a).
Proof.
  unfold joint_probability, joint_value.
  rewrite joint_probability_loop. f_equal. ring.
Qed.

(** ** The gene-transmission model *)

(** C3: a parent with 2 copies passes the gene with probability [1 - m], a
    parent with 1 copy with probability 0.5 whatever [m] is, a parent with 0
    copies with probability [m]; and for parents passing it with
    probabilities [pm] and [pf], the child has 2 copies with probability
    [pm * pf] (both pass), 1 copy with probability
    [pm * (1 - pf) + pf * (1 - pm)] (exactly one passes) and 0 copies with
    probability [(1 - pm) * (1 - pf)] (neither passes). *)
Theorem gene_transmission_model (P : Probs) (mother_genes father_genes : Z) :
  (0 ≤ mother_genes ≤ 2)%Z →
  (0 ≤ father_genes ≤ 2)%Z →
  calculate_probability_of_passing_gene_to_child P 2 = Ok (1 - mutation P)
  ∧ calculate_probability_of_passing_gene_to_child P 1 = Ok (Q2Qc 0.5)
  ∧ calculate_probability_of_passing_gene_to_child P 0 = Ok (mutation P)
  ∧ ∃ pm pf : Qc,
      calculate_probability_of_passing_gene_to_child P mother_genes = Ok pm
      ∧ calculate_probability_of_passing_gene_to_child P father_genes = Ok pf
      ∧ calculate_child_gene_probability P mother_genes father_genes 2
        = Ok (pm * pf)
      ∧ calculate_child_gene_probability P mother_genes father_genes 1
        = Ok (pm * (1 - pf) + pf * (1 - pm))
      ∧ calculate_child_gene_probability P mother_genes father_genes 0
        = Ok ((1 - pm) * (1 - pf)).
Proof.
  intros Hm Hf.
  assert (is_count mother_genes) as Hm' by (unfold is_count; lia).
  assert (is_count father_genes) as Hf' by (unfold is_count; lia).
  split; [reflexivity|]. split; [reflexivity|]. split; [reflexivity|].
  exists (pass_value P mother_genes), (pass_value P father_genes).
  rewrite !passing_count by done.
  rewrite !child_count by (unfold is_count; auto).
  done.
Qed.

Lemma gene_transmission_model_witness :
  calculate_child_gene_probability PROBS 2 0 1
  = Ok (Q2Qc 0.99 * (1 - Q2Qc 0.01) + Q2Qc 0.01 * (1 - Q2Qc 0.99)).
Proof.
  destruct (gene_transmission_model PROBS 2 0 ltac:(lia) ltac:(lia))
    as (_ & _ & _ & pm & pf & Hpm & Hpf & _ & H1 & _).
  simpl in Hpm, Hpf. simplify_eq.
  rewrite H1. apply (f_equal Ok), Qc_is_canon. vm_compute. reflexivity.
Defined.

(** ** Permutations of sums and products *)

#[global] Instance product_Permutation : Proper ((≡ₚ) ==> (=)) product.
Proof.
  intros l1 l2 H. induction H as [|x l1 l2 _ IH|x y l|l1 l2 l3 _ IH1 _ IH2].
  - reflexivity.
  - rewrite !product_cons, IH. reflexivity.
  - rewrite !product_cons. ring.
  - congruence.
Qed.

#[global] Instance total_Permutation : Proper ((≡ₚ) ==> (=)) total.
Proof.
  intros l1 l2 H. induction H as [|x l1 l2 _ IH|x y l|l1 l2 l3 _ IH1 _ IH2].
  - reflexivity.
  - rewrite !total_cons, IH. reflexivity.
  - rewrite !total_cons. ring.
  - congruence.
Qed.



(** ** The joint probability, in the words of the specification *)

Lemma known_parents_Some data m f :
  known_parents data = Some (m, f) ↔
  mother data = Some m ∧ father data = Some f
  ∧ recorded (mother data) = true ∧ recorded (father data) = true.
Proof.
  unfold known_parents.
  destruct (mother data) as [m'|], (father data) as [f'|]; simpl;
    repeat case_bool_decide; simpl;
    (split; [intros [= -> ->] || intros [=]; done
            | intros (Hm & Hf & Hrm & Hrf); by simplify_eq]).
Qed.

Lemma known_parents_None data :
  known_parents data = None ↔
  recorded (mother data) = false ∨ recorded (father data) = false.
Proof.
  unfold known_parents.
  destruct (mother data) as [m'|], (father data) as [f'|]; simpl;
    repeat case_bool_decide; simpl;
    (split; [intros Hk; (by left) || (by right) || done
            | intros [Hk | Hk]; done]).
Qed.

Lemma prior_value_spec n :
  is_count n → prior_value PROBS n = Spec.unconditional_prior n.
Proof. intros H; count_cases H; reflexivity. Qed.

Lemma trait_value_spec n b :
  is_count n → trait_value PROBS n b = Spec.trait_conditional n b.
Proof. intros H; count_cases H; reflexivity. Qed.

Lemma child_value_spec mg fg n :
  is_count mg → is_count fg → is_count n →
  child_value PROBS mg fg n = Spec.from_parents mg fg n.
Proof.
  intros Hm Hf Hn. unfold child_value, Spec.from_parents.
  replace (Spec.transmits mg) with (pass_value PROBS mg)
    by (count_cases Hm; reflexivity).
  replace (Spec.transmits fg) with (pass_value PROBS fg)
    by (count_cases Hf; reflexivity).
  count_cases Hn; simpl; ring.
Qed.

Lemma gene_value_spec a person data :
  recorded (mother data) = recorded (father data) →
  gene_value PROBS a person data = Spec.gene_probability a person data.
Proof.
  intros Hwf. unfold gene_value, Spec.gene_probability.
  destruct (known_parents data) as [[m f]|] eqn:Hk.
  - apply known_parents_Some in Hk as (Hm & Hf & Hrm & Hrf).
    rewrite Hrm, Hrf, Hm, Hf. simpl.
    apply child_value_spec; apply gene_count_count.
  - apply known_parents_None in Hk.
    assert (recorded (mother data) = false ∧ recorded (father data) = false)
      as [-> ->] by (destruct Hk; split; congruence).
    simpl. apply prior_value_spec, gene_count_count.
Qed.

(** C1: on a pedigree in which every person has both parents recorded or
    neither, [joint_probability] returns, for every assignment, the product
    over all persons of the probability of the person's assigned gene count
    (the prior 0.96 / 0.03 / 0.01 without recorded parents, the value derived
    from both parents' counts otherwise) times the probability of the
    person's assigned trait value given that gene count. *)
Theorem joint_probability_is_product
    (people : gmap string Person) (a : Assignment) :
  parents_both_or_neither people →
  joint_probability PROBS people (one_gene a) (two_genes a) (have_trait a)
  = Ok (Spec.joint people a).
Proof.
  intros Hwf.
  rewrite (joint_probability_value PROBS people a).
  f_equal. unfold joint_value, Spec.joint. f_equal.
  apply list_fmap_ext. intros i [person data] Hi.
  apply list_elem_of_lookup_2, elem_of_map_to_list in Hi.
  unfold person_value, Spec.trait_probability. simpl.
  rewrite (gene_value_spec a person data) by eauto.
  rewrite trait_value_spec by apply gene_count_count.
  reflexivity.
Qed.

Lemma joint_probability_is_product_witness :
  parents_both_or_neither family
  ∧ joint_probability PROBS family {["Harry"]} {["James"]} {["James"]}
    = Ok (Q2Qc 0.0026643247488).
Proof.
  assert (parents_both_or_neither family) as Hwf
    by (apply (bool_decide_unpack _); vm_compute; exact I).
  split; [exact Hwf|].
  etrans;
    [exact (joint_probability_is_product family
              {| one_gene := {["Harry"]}; two_genes := {["James"]};
                 have_trait := {["James"]} |} Hwf)|].
  apply (f_equal Ok), Qc_is_canon. vm_compute. reflexivity.
Defined.

(** ** A person with exactly one recorded parent *)

Lemma joint_value_delete P people a person data :
  people !! person = Some data →
  joint_value P people a
  = person_value P a (person, data) * joint_value P (delete person people) a.
Proof.
  intros Hp. unfold joint_value.
  rewrite <- (map_to_list_delete people person data Hp).
  rewrite fmap_cons, product_cons. reflexivity.
Qed.

Lemma joint_value_insert P people a person data data' :
  people !! person = Some data →
  person_value P a (person, data) = person_value P a (person, data') →
  joint_value P (<[person := data']> people) a = joint_value P people a.
Proof.
  intros Hp Heq.
  rewrite (joint_value_delete P people a person data Hp).
  rewrite (joint_value_delete P (<[person := data']> people) a person data')
    by apply lookup_insert_eq.
  rewrite delete_insert_eq, Heq. reflexivity.
Qed.

(** C10: for a person with exactly one of mother / father recorded,
    [joint_probability] raises no error and returns the product, over the
    persons of the pedigree, of their factors, in which the factor of this
    person is the unconditional prior of the person's own count times the
    probability of the person's trait value given that count. The gene
    count of the recorded parent plays no part: with both parents of the
    person erased the result is the same. *)
Theorem one_parent_is_no_parent
    (people : gmap string Person) (person : string) (data : Person)
    (a : Assignment) :
  people !! person = Some data →
  recorded (mother data) ≠ recorded (father data) →
  joint_probability PROBS people (one_gene a) (two_genes a) (have_trait a)
  = Ok (product (factor_with_prior person a <$> map_to_list people))
  ∧ joint_probability PROBS (<[person := without_parents data]> people)
      (one_gene a) (two_genes a) (have_trait a)
    = joint_probability PROBS people
        (one_gene a) (two_genes a) (have_trait a).
Proof.
  intros Hp Hone.
  assert (known_parents data = None) as Hk.
  { apply known_parents_None.
    destruct (recorded (mother data)), (recorded (father data));
      auto; by destruct Hone. }
  split.
  - rewrite (joint_probability_value PROBS people a).
    f_equal. unfold joint_value. f_equal.
    apply list_fmap_ext. intros i [n d] Hi.
    apply list_elem_of_lookup_2, elem_of_map_to_list in Hi.
    unfold factor_with_prior. cbn [fst].
    destruct (decide (n = person)) as [->|Hne]; [|reflexivity].
    assert (d = data) as -> by congruence.
    unfold person_value, gene_value. cbn [fst snd]. rewrite Hk.
    rewrite prior_value_spec, trait_value_spec by apply gene_count_count.
    reflexivity.
  - rewrite !joint_probability_value. f_equal.
    apply (joint_value_insert _ _ _ _ data); [done|].
    unfold person_value, gene_value. simpl. rewrite Hk. reflexivity.
Qed.

Lemma one_parent_is_no_parent_witness :
  joint_probability PROBS family_one_parent ∅ {["Lily"]} ∅
  = Ok (Q2Qc 0.0033264)
  ∧ joint_probability PROBS
      (<["Harry" := without_parents harry_one_parent]> family_one_parent)
      ∅ {["Lily"]} ∅
    = Ok (Q2Qc 0.0033264).
Proof.
  assert (family_one_parent !! "Harry" = Some harry_one_parent) as Hp
    by reflexivity.
  assert (recorded (mother harry_one_parent)
          ≠ recorded (father harry_one_parent)) as Hone
    by (simpl; discriminate).
  destruct (one_parent_is_no_parent family_one_parent "Harry"
              harry_one_parent
              {| one_gene := ∅; two_genes := {["Lily"]}; have_trait := ∅ |}
              Hp Hone) as [H1 H2].
  cbn [one_gene two_genes have_trait] in H1, H2.
  assert (product
            (factor_with_prior "Harry"
               {| one_gene := ∅; two_genes := {["Lily"]}; have_trait := ∅ |}
             <$> map_to_list family_one_parent)
          = Q2Qc 0.0033264) as Hvalue
    by (apply Qc_is_canon; vm_compute; reflexivity).
  rewrite Hvalue in H1.
  split; [exact H1|]. rewrite H2. exact H1.
Defined.

(** ** Loops that rewrite the entry of each key *)

Section keyed_loop.
Context {V : Type} (f : string → V → result V).

Lemma keyed_step_lookup m k d :
  m !! k = Some d → keyed_step f m k = d' ← f k d; Ok (<[k := d']> m).
Proof. intros Hd. unfold keyed_step, get_item. rewrite Hd. reflexivity. Qed.

Lemma keyed_loop_ok (g : string → V → V) (ks : list string) :
  ∀ m : gmap string V,
    NoDup ks →
    (∀ k, k ∈ ks → ∃ d, m !! k = Some d ∧ f k d = Ok (g k d)) →
    for_each (keyed_step f) ks m
    = Ok (map_imap
            (λ k d, Some (if bool_decide (k ∈ ks) then g k d else d)) m).
Proof.
  induction ks as [|k ks IH]; intros m Hnd Hks.
  - simpl. f_equal. apply map_eq. intros i.
    rewrite map_lookup_imap. destruct (m !! i); reflexivity.
  - apply NoDup_cons in Hnd as [Hk Hnd].
    destruct (Hks k) as (d & Hd & Hf); [left|].
    rewrite for_each_cons, (keyed_step_lookup _ _ _ Hd), Hf. simpl.
    rewrite IH; [|done|].
    + f_equal. apply map_eq. intros i. rewrite !map_lookup_imap.
      destruct (decide (i = k)) as [->|Hne].
      * rewrite lookup_insert_eq, Hd. simpl.
        rewrite bool_decide_eq_false_2 by done.
        rewrite bool_decide_eq_true_2 by left. reflexivity.
      * rewrite lookup_insert_ne by done.
        destruct (m !! i) as [di|]; [simpl|reflexivity].
        rewrite (bool_decide_ext (i ∈ ks) (i ∈ k :: ks)); [done|].
        rewrite elem_of_cons. split; [auto|]. by intros [?|?].
    + intros k' Hk'. destruct (Hks k') as (d' & Hd' & Hf'); [by right|].
      exists d'. rewrite lookup_insert_ne by (intros ->; done). done.
Qed.

Lemma keyed_loop_raise (e : exception) (ks : list string) :
  ∀ m : gmap string V,
    (∀ k, k ∈ ks → is_Some (m !! k)) →
    (∀ k d e', f k d = Raise e' → e' = e) →
    (∃ k d, k ∈ ks ∧ m !! k = Some d ∧ f k d = Raise e) →
    for_each (keyed_step f) ks m = Raise e.
Proof.
  induction ks as [|k0 ks IH]; intros m Hks He (k & d & Hk & Hd & Hf).
  - by apply elem_of_nil in Hk.
  - destruct (Hks k0) as [d0 Hd0]; [left|].
    rewrite for_each_cons, (keyed_step_lookup _ _ _ Hd0).
    destruct (f k0 d0) as [d0'|e'] eqn:Hf0; simpl.
    + assert (k ≠ k0) as Hne by (intros ->; congruence).
      apply IH; [|done|].
      * intros k' Hk'. destruct (decide (k' = k0)) as [->|].
        -- rewrite lookup_insert_eq. eauto.
        -- rewrite lookup_insert_ne by done. apply Hks. by right.
      * exists k, d. rewrite lookup_insert_ne by done.
        apply elem_of_cons in Hk as [?|?]; done.
    + by rewrite (He _ _ _ Hf0).
Qed.
End keyed_loop.

Lemma NoDup_keys {V : Type} (m : gmap string V) : NoDup (keys m).
Proof. apply NoDup_fst_map_to_list. Qed.

Lemma elem_of_keys {V : Type} (m : gmap string V) k :
  k ∈ keys m ↔ is_Some (m !! k).
Proof.
  unfold keys. rewrite list_elem_of_fmap. split.
  - intros ([k' v] & -> & Hkv). apply elem_of_map_to_list in Hkv. eauto.
  - intros [v Hv]. exists (k, v). split; [done|].
    by apply elem_of_map_to_list.
Qed.

(** ** [normalize] *)

Lemma divide_ok x y : y ≠ 0 → divide x y = Ok (x / y).
Proof. intros H. unfold divide. by rewrite bool_decide_eq_false_2. Qed.

Lemma divide_raise x y e : divide x y = Raise e → e = ZeroDivisionError.
Proof. unfold divide. case_bool_decide; congruence. Qed.

Lemma normalize_step_keyed probabilities person :
  normalize_step probabilities person
  = keyed_step (λ _, normalize_entry) probabilities person.
Proof.
  unfold normalize_step, keyed_step, normalize_entry, gene_total, trait_total.
  destruct (get_item probabilities person) as [d|e]; [simpl|reflexivity].
  destruct (divide 1 (d_gene_2 d + d_gene_1 d + d_gene_0 d));
    [simpl|reflexivity].
  destruct (divide 1 (d_trait_True d + d_trait_False d)); reflexivity.
Qed.

Lemma for_each_ext {S X : Type} (body1 body2 : S → X → result S) xs s :
  (∀ s x, body1 s x = body2 s x) →
  for_each body1 xs s = for_each body2 xs s.
Proof.
  intros Hext. revert s. induction xs as [|x xs IH]; intros s; [done|].
  rewrite !for_each_cons, Hext. destruct (body2 s x); simpl; auto.
Qed.

Lemma normalize_entry_ok d :
  gene_total d ≠ 0 → trait_total d ≠ 0 →
  normalize_entry d = Ok (normalized d).
Proof.
  intros Hg Ht. unfold normalize_entry.
  rewrite !divide_ok by done. reflexivity.
Qed.

Lemma normalize_entry_zero d :
  gene_total d = 0 ∨ trait_total d = 0 →
  normalize_entry d = Raise ZeroDivisionError.
Proof.
  intros Hz. unfold normalize_entry.
  destruct (decide (gene_total d = 0)) as [->|Hg]; [reflexivity|].
  destruct Hz as [?| ->]; [done|].
  rewrite (divide_ok 1 (gene_total d)) by done. reflexivity.
Qed.

Lemma normalize_entry_raise d e :
  normalize_entry d = Raise e → e = ZeroDivisionError.
Proof.
  unfold normalize_entry.
  destruct (divide 1 (gene_total d)) eqn:H1; simpl;
    [|intros [= <-]; by eapply divide_raise].
  destruct (divide 1 (trait_total d)) eqn:H2; simpl;
    [done|intros [= <-]; by eapply divide_raise].
Qed.

Lemma normalize_ok (probabilities : gmap string Distribution) :
  map_Forall (λ _ d, gene_total d ≠ 0 ∧ trait_total d ≠ 0) probabilities →
  normalize probabilities = Ok (normalized <$> probabilities).
Proof.
  intros Hnz. unfold normalize.
  rewrite (for_each_ext _ _ _ _ normalize_step_keyed).
  rewrite (keyed_loop_ok _ (λ _, normalized)).
  - f_equal. apply map_eq. intros i.
    rewrite map_lookup_imap, lookup_fmap.
    destruct (probabilities !! i) as [d|] eqn:Hi; [simpl|done].
    rewrite bool_decide_eq_true_2; [done|]. apply elem_of_keys. eauto.
  - apply NoDup_keys.
  - intros k [d Hd]%elem_of_keys. exists d. split; [done|].
    destruct (Hnz k d Hd). by apply normalize_entry_ok.
Qed.

Ltac distribution_fields :=
  cbn [d_gene_2 d_gene_1 d_gene_0 d_trait_True d_trait_False] in *.






(** C7, as the code has it: when some person's three gene totals or two
    trait totals sum to zero, [normalize] raises [ZeroDivisionError]; no
    table is returned. *)
Theorem normalize_zero_total_raises
    (probabilities : gmap string Distribution) (person : string)
    (d : Distribution) :
  probabilities !! person = Some d →
  d_gene_2 d + d_gene_1 d + d_gene_0 d = 0
  ∨ d_trait_True d + d_trait_False d = 0 →
  normalize probabilities = Raise ZeroDivisionError.
Proof.
  intros Hd Hz. unfold normalize.
  rewrite (for_each_ext _ _ _ _ normalize_step_keyed).
  apply keyed_loop_raise.
  - intros k. apply elem_of_keys.
  - intros _ d' e'. apply normalize_entry_raise.
  - exists person, d. split; [apply elem_of_keys; eauto|].
    split; [done|]. by apply normalize_entry_zero.
Qed.

Lemma normalize_zero_total_raises_witness :
  normalize {[ "Harry" := initial_distribution ]} = Raise ZeroDivisionError.
Proof.
  apply (normalize_zero_total_raises _ "Harry" initial_distribution).
  - apply lookup_singleton_eq.
  - left. reflexivity.
Defined.

(** C7, as the specification has it, fails: on the table of a single person
    whose totals are all zero the error raised is not a
    [DegenerateEvidenceError]. *)
Lemma normalize_zero_total_not_degenerate :
  d_gene_2 initial_distribution + d_gene_1 initial_distribution
  + d_gene_0 initial_distribution = 0
  ∧ normalize {[ "Harry" := initial_distribution ]}
    ≠ Raise DegenerateEvidenceError.
Proof. split; [reflexivity|]. vm_compute. discriminate. Qed.

(** ** [load_data] *)

Lemma load_data_loop rows :
  ∀ data : gmap string Person,
    ∃ data' : gmap string Person,
      for_each (λ data row, Ok (<[row_name row := person_of_row row]> data))
               rows data = Ok data'
      ∧ ∀ n, data' !! n
             = match last_row_named rows n with
               | Some row => Some (person_of_row row)
               | None => data !! n
               end.
Proof.
  unfold last_row_named.
  induction rows as [|row rows IH]; intros data.
  - exists data. split; [reflexivity|]. intros n. reflexivity.
  - rewrite for_each_cons. simpl.
    destruct (IH (<[row_name row := person_of_row row]> data))
      as (data' & Hloop & Hlookup).
    exists data'. split; [exact Hloop|]. intros n. rewrite Hlookup.
    destruct (decide (row_name row = n)) as [Hn|Hn].
    + rewrite filter_cons_True by done. rewrite last_cons.
      destruct (last (filter (λ row0, row_name row0 = n) rows)); [done|].
      rewrite <- Hn. apply lookup_insert_eq.
    + rewrite filter_cons_False by done.
      destruct (last (filter (λ row0, row_name row0 = n) rows)); [done|].
      by apply lookup_insert_ne.
Qed.

(** C8, as the code has it: [load_data] checks nothing and never fails. It
    returns the dictionary that holds, under each name of the file, the
    record of the last row with that name, its blank mother and father
    fields read as absent; no other name is a key. A parent that is not a
    row of the file, or a single parent, is stored as it is written. *)
Theorem load_data_never_fails (rows : list Row) :
  ∃ data : gmap string Person,
    load_data rows = Ok data
    ∧ ∀ n, data !! n = person_of_row <$> last_row_named rows n.
Proof.
  destruct (load_data_loop rows ∅) as (data & Hloop & Hlookup).
  exists data. split; [exact Hloop|]. intros n. rewrite Hlookup.
  destruct (last_row_named rows n); [done|]. apply lookup_empty.
Qed.

(** C8, as the specification has it, fails: a file whose only row names a
    mother who is no row of the file, and no father, is loaded without
    error. *)
Lemma load_data_accepts_malformed :
  load_data [ {| row_name := "Harry"; row_mother := "Lily";
                 row_father := ""; row_trait := "" |} ]
  = Ok {[ "Harry" := {| name := "Harry"; mother := Some "Lily";
                        father := None; trait := None |} ]}
  ∧ load_data [ {| row_name := "Harry"; row_mother := "Lily";
                   row_father := ""; row_trait := "" |} ]
    ≠ Raise MalformedPedigreeError.
Proof. split; [reflexivity|discriminate]. Qed.

(** ** [powerset]: every subset, once *)

Lemma elem_of_combinations {A : Type} (l x : list A) (r : nat) :
  x ∈ combinations l r ↔ x `sublist_of` l ∧ length x = r.
Proof.
  revert x r. induction l as [|a l IH]; intros x [|r]; simpl.
  - rewrite list_elem_of_singleton, sublist_nil_r.
    split; [by intros ->|by intros [-> _]].
  - rewrite elem_of_nil, sublist_nil_r. split; [done|by intros [-> ?]].
  - rewrite list_elem_of_singleton. split.
    + intros ->. split; [apply sublist_nil_l|done].
    + intros [_ Hlen]. by destruct x.
  - rewrite elem_of_app, list_elem_of_fmap, sublist_cons_r. split.
    + intros [(x' & -> & Hx')|Hx].
      * apply IH in Hx' as [Hsub <-]. split; [right; eauto|done].
      * apply IH in Hx as [Hsub Hlen]. split; [by left|done].
    + intros [[Hsub|(x' & -> & Hsub)] Hlen].
      * right. by apply IH.
      * left. exists x'. split; [done|]. apply IH. simpl in Hlen.
        split; [done|lia].
Qed.

Lemma NoDup_combinations {A : Type} (l : list A) (r : nat) :
  NoDup l → NoDup (combinations l r).
Proof.
  revert r. induction l as [|a l IH]; intros [|r] Hnd; simpl.
  - apply NoDup_singleton.
  - apply NoDup_nil_2.
  - apply NoDup_singleton.
  - apply NoDup_cons in Hnd as [Ha Hnd]. apply NoDup_app. split_and!.
    + apply (NoDup_fmap_2 _). by apply IH.
    + intros x (x' & -> & Hx')%list_elem_of_fmap [Hsub _]%elem_of_combinations.
      apply Ha. eapply elem_of_sublist; [|exact Hsub]. left.
    + by apply IH.
Qed.

Lemma elem_of_sublists {A : Type} (l x : list A) :
  x ∈ sublists l ↔ x `sublist_of` l.
Proof.
  unfold sublists. rewrite list_elem_of_bind. split.
  - intros (r & [Hsub _]%elem_of_combinations & _). done.
  - intros Hsub. exists (length x). split.
    + by apply elem_of_combinations.
    + apply elem_of_seq. apply sublist_length in Hsub. lia.
Qed.

Lemma NoDup_sublists {A : Type} (l : list A) : NoDup l → NoDup (sublists l).
Proof.
  intros Hnd. unfold sublists. apply NoDup_bind.
  - intros r1 r2 x _ _ [_ <-]%elem_of_combinations
      [_ <-]%elem_of_combinations. done.
  - intros r _. by apply NoDup_combinations.
  - apply NoDup_seq.
Qed.

(** Two sublists of a list without duplicates that hold the same elements
    are the same list. *)
Lemma sublist_same_elements (l x y : list string) :
  NoDup l → x `sublist_of` l → y `sublist_of` l →
  (list_to_set x : gset string) = list_to_set y → x = y.
Proof.
  revert x y. induction l as [|a l IH]; intros x y Hnd Hx Hy Heq.
  - apply sublist_nil_r in Hx, Hy. congruence.
  - apply NoDup_cons in Hnd as [Ha Hnd].
    assert (∀ z : list string, z `sublist_of` l → a ∉ z) as Hfresh.
    { intros z Hz Haz. apply Ha. by eapply elem_of_sublist. }
    apply sublist_cons_r in Hx as [Hx|(x' & -> & Hx)];
      apply sublist_cons_r in Hy as [Hy|(y' & -> & Hy)].
    + by apply IH.
    + exfalso. apply (Hfresh x Hx).
      apply (elem_of_list_to_set (C := gset string)). rewrite Heq.
      apply elem_of_list_to_set. left.
    + exfalso. apply (Hfresh y Hy).
      apply (elem_of_list_to_set (C := gset string)). rewrite <- Heq.
      apply elem_of_list_to_set. left.
    + f_equal. apply IH; [done..|].
      apply Hfresh in Hx, Hy. apply set_eq. intros z.
      rewrite !elem_of_list_to_set.
      assert (z ∈ (list_to_set (a :: x') : gset string)
              ↔ z ∈ (list_to_set (a :: y') : gset string)) as Hz
        by (by rewrite Heq).
      rewrite !elem_of_list_to_set, !elem_of_cons in Hz.
      split; intros Hin.
      * destruct Hz as [[->|?] _]; [by right|done|done].
      * destruct Hz as [_ [->|?]]; [by right|done|done].
Qed.

Lemma elem_of_powerset (s x : gset string) : x ∈ powerset s ↔ x ⊆ s.
Proof.
  unfold powerset. fold (sublists (elements s)).
  rewrite list_elem_of_fmap. split.
  - intros (l & -> & Hl%elem_of_sublists). intros z.
    rewrite elem_of_list_to_set, <- elem_of_elements.
    intros Hz. by eapply elem_of_sublist.
  - intros Hsub. exists (filter (λ z, z ∈ x) (elements s)). split.
    + apply set_eq. intros z.
      rewrite elem_of_list_to_set, list_elem_of_filter, elem_of_elements.
      split; [auto|tauto].
    + apply elem_of_sublists, sublist_filter.
Qed.

Lemma NoDup_powerset (s : gset string) : NoDup (powerset s).
Proof.
  unfold powerset. fold (sublists (elements s)).
  apply NoDup_fmap_2_strong.
  - intros x y Hx%elem_of_sublists Hy%elem_of_sublists Heq.
    exact (sublist_same_elements (elements s) x y (NoDup_elements s)
             Hx Hy Heq).
  - apply NoDup_sublists, NoDup_elements.
Qed.

(** ** The enumeration of [main] *)

Lemma for_each_app {S X : Type} (body : S → X → result S) xs ys s :
  for_each body (xs ++ ys) s = s' ← for_each body xs s; for_each body ys s'.
Proof.
  revert s. induction xs as [|x xs IH]; intros s; [done|].
  simpl. destruct (body s x); simpl; auto.
Qed.

Lemma for_each_bind {S X Y : Type} (body : S → Y → result S)
    (f : X → list Y) xs s :
  for_each body (xs ≫= f) s = for_each (λ s x, for_each body (f x) s) xs s.
Proof.
  revert s. induction xs as [|x xs IH]; intros s; [done|].
  rewrite bind_cons, for_each_app, for_each_cons.
  destruct (for_each body (f x) s); simpl; auto.
Qed.

Lemma for_each_singleton {S X : Type} (body : S → X → result S) x s :
  for_each body [x] s = body s x.
Proof. simpl. by destruct (body s x). Qed.

Lemma accumulate_enumeration P people :
  accumulate P people
  = for_each (accumulate_step P people) (enumeration people)
             ((λ _, initial_distribution) <$> people).
Proof.
  unfold accumulate, enumeration. rewrite for_each_bind.
  apply for_each_ext. intros probs ht.
  destruct (fails_evidence people (dom people) ht); [done|].
  rewrite for_each_bind. apply for_each_ext. intros probs1 og.
  rewrite for_each_bind. apply for_each_ext. intros probs2 tg.
  by rewrite for_each_singleton.
Qed.

(** ** [update] *)

Lemma add_gene_count d n p :
  is_count n → add_gene d n p = Ok (add_gene_value d n p).
Proof. intros H; count_cases H; reflexivity. Qed.

Lemma update_step_keyed a p probabilities person :
  update_step (one_gene a) (two_genes a) (have_trait a) p probabilities person
  = keyed_step (λ person d, Ok (bump a p person d)) probabilities person.
Proof.
  unfold update_step, keyed_step.
  destruct (get_item probabilities person) as [d|e]; [simpl|reflexivity].
  rewrite add_gene_count by apply get_number_of_genes_by_name_count.
  reflexivity.
Qed.

Lemma update_ok probabilities a p :
  update probabilities (one_gene a) (two_genes a) (have_trait a) p
  = Ok (map_imap (λ person d, Some (bump a p person d)) probabilities).
Proof.
  unfold update.
  rewrite (for_each_ext _ _ _ _ (update_step_keyed a p)).
  rewrite (keyed_loop_ok _ (bump a p)).
  - f_equal. apply map_eq. intros i. rewrite !map_lookup_imap.
    destruct (probabilities !! i) as [d|] eqn:Hi; [simpl|done].
    rewrite bool_decide_eq_true_2; [done|]. apply elem_of_keys. eauto.
  - apply NoDup_keys.
  - intros k [d Hd]%elem_of_keys. eauto.
Qed.

(** ** The accumulated totals are marginal sums *)

Lemma accumulate_step_ok P people probabilities a :
  accumulate_step P people probabilities a
  = Ok (map_imap (λ person d, Some (bump a (joint_value P people a) person d))
                 probabilities).
Proof.
  unfold accumulate_step. rewrite joint_probability_value. simpl.
  apply update_ok.
Qed.

Lemma accumulate_loop P people L :
  ∀ probabilities : gmap string Distribution,
    for_each (accumulate_step P people) L probabilities
    = Ok (map_imap (λ person d, Some (accumulated P people L person d))
                   probabilities).
Proof.
  induction L as [|a L IH]; intros probs.
  - simpl. f_equal. apply map_eq. intros i. rewrite map_lookup_imap.
    by destruct (probs !! i).
  - rewrite for_each_cons, accumulate_step_ok. simpl. rewrite IH. f_equal.
    apply map_eq. intros i. rewrite !map_lookup_imap.
    by destruct (probs !! i).
Qed.

Lemma gene_marginal_cons P people a L person n :
  gene_marginal P people (a :: L) person n
  = (if decide (gene_count a person = n) then joint_value P people a else 0)
    + gene_marginal P people L person n.
Proof.
  unfold gene_marginal. rewrite filter_cons.
  destruct (decide (gene_count a person = n)).
  - by rewrite fmap_cons, total_cons.
  - ring.
Qed.

Lemma trait_marginal_cons P people a L person b :
  trait_marginal P people (a :: L) person b
  = (if decide (bool_decide (person ∈ have_trait a) = b)
     then joint_value P people a else 0)
    + trait_marginal P people L person b.
Proof.
  unfold trait_marginal. rewrite filter_cons.
  destruct (decide (bool_decide (person ∈ have_trait a) = b)).
  - by rewrite fmap_cons, total_cons.
  - ring.
Qed.

Lemma accumulated_marginals P people L person :
  ∀ d,
    accumulated P people L person d
    = {| d_gene_2 := d_gene_2 d + gene_marginal P people L person 2;
         d_gene_1 := d_gene_1 d + gene_marginal P people L person 1;
         d_gene_0 := d_gene_0 d + gene_marginal P people L person 0;
         d_trait_True := d_trait_True d + trait_marginal P people L person true;
         d_trait_False :=
           d_trait_False d + trait_marginal P people L person false |}.
Proof.
  induction L as [|a L IH]; intros d.
  - unfold accumulated, gene_marginal, trait_marginal. simpl.
    rewrite total_nil. destruct d. distribution_fields. f_equal; ring.
  - unfold accumulated in *. simpl. rewrite IH.
    rewrite !gene_marginal_cons, !trait_marginal_cons.
    unfold bump, add_trait, add_gene_value.
    destruct (gene_count_count a person) as [-> | [-> | ->]];
      destruct (bool_decide (person ∈ have_trait a));
      repeat case_decide; try done; distribution_fields; f_equal; ring.
Qed.

(** [accumulate] never raises: it returns, for every person, the marginal
    sums over the enumeration. *)
Lemma accumulate_ok P people :
  accumulate P people
  = Ok (map_imap
          (λ person _, Some (marginals P people (enumeration people) person))
          people).
Proof.
  rewrite accumulate_enumeration, accumulate_loop. f_equal.
  apply map_eq. intros i. rewrite !map_lookup_imap, lookup_fmap.
  destruct (people !! i); [simpl|done].
  rewrite accumulated_marginals. unfold marginals, initial_distribution.
  distribution_fields. f_equal. f_equal; ring.
Qed.

(** ** The enumeration visits every consistent assignment once *)

Lemma existsb_false {A : Type} (f : A → bool) (l : list A) :
  existsb f l = false ↔ ∀ x, x ∈ l → f x = false.
Proof.
  induction l as [|y l IH]; simpl.
  - split; [|done]. intros _ x Hx. by apply elem_of_nil in Hx.
  - rewrite orb_false_iff, IH. split.
    + intros [Hy Hl] x [->|Hx]%elem_of_cons; auto.
    + intros H. split; [apply H; left|]. intros x Hx. apply H. by right.
Qed.

Lemma fails_evidence_false people ht :
  fails_evidence people (dom people) ht = false ↔ respects_evidence people ht.
Proof.
  unfold fails_evidence, respects_evidence. rewrite existsb_false. split.
  - intros H person data t Hp Ht.
    specialize (H person). rewrite Hp, Ht in H.
    destruct (decide (t = bool_decide (person ∈ ht))) as [|Hne]; [done|].
    rewrite bool_decide_eq_true_2 in H by done.
    discriminate H. apply elem_of_elements, elem_of_dom. eauto.
  - intros H person _.
    destruct (people !! person) as [data|] eqn:Hp; [|done].
    destruct (trait data) as [t|] eqn:Ht; [|done].
    apply bool_decide_eq_false_2. intros Hne. apply Hne. eauto.
Qed.

Lemma elem_of_enumeration people a :
  a ∈ enumeration people ↔ consistent people a.
Proof.
  unfold enumeration, consistent. rewrite list_elem_of_bind. split.
  - intros (ht & Ha & Hht%elem_of_powerset).
    destruct (fails_evidence people (dom people) ht) eqn:Hev;
      [by apply elem_of_nil in Ha|].
    apply fails_evidence_false in Hev.
    apply list_elem_of_bind in Ha as (og & Ha & Hog%elem_of_powerset).
    apply list_elem_of_bind in Ha as (tg & Ha & Htg%elem_of_powerset).
    apply list_elem_of_singleton in Ha as ->. simpl.
    split_and!; [done| | |done|done].
    + intros z Hz. by apply Htg, elem_of_difference in Hz as [? _].
    + apply elem_of_disjoint. intros z Hzo Hzt.
      by apply Htg, elem_of_difference in Hzt as [_ ?].
  - intros (Hog & Htg & Hdisj & Hht & Hev).
    exists (have_trait a). split; [|by apply elem_of_powerset].
    apply fails_evidence_false in Hev. rewrite Hev.
    apply list_elem_of_bind. exists (one_gene a).
    split; [|by apply elem_of_powerset].
    apply list_elem_of_bind. exists (two_genes a).
    split.
    + apply list_elem_of_singleton. by destruct a.
    + apply elem_of_powerset. intros z Hz. apply elem_of_difference.
      split; [by apply Htg|]. intros Hzo.
      by apply (proj1 (elem_of_disjoint _ _) Hdisj z).
Qed.

Lemma NoDup_enumeration people : NoDup (enumeration people).
Proof.
  unfold enumeration. apply NoDup_bind; [| |apply NoDup_powerset].
  - intros ht1 ht2 a _ _ H1 H2.
    destruct (fails_evidence people (dom people) ht1);
      [by apply elem_of_nil in H1|].
    destruct (fails_evidence people (dom people) ht2);
      [by apply elem_of_nil in H2|].
    apply list_elem_of_bind in H1 as (og1 & H1 & _).
    apply list_elem_of_bind in H1 as (tg1 & H1 & _).
    apply list_elem_of_bind in H2 as (og2 & H2 & _).
    apply list_elem_of_bind in H2 as (tg2 & H2 & _).
    apply list_elem_of_singleton in H1, H2. congruence.
  - intros ht _. destruct (fails_evidence people (dom people) ht);
      [apply NoDup_nil_2|].
    apply NoDup_bind; [| |apply NoDup_powerset].
    + intros og1 og2 a _ _ H1 H2.
      apply list_elem_of_bind in H1 as (tg1 & H1 & _).
      apply list_elem_of_bind in H2 as (tg2 & H2 & _).
      apply list_elem_of_singleton in H1, H2. congruence.
    + intros og _. apply NoDup_bind; [| |apply NoDup_powerset].
      * intros tg1 tg2 a _ _ H1 H2.
        apply list_elem_of_singleton in H1, H2. congruence.
      * intros tg _. apply NoDup_singleton.
Qed.

Lemma gene_marginal_Permutation P people L1 L2 person n :
  L1 ≡ₚ L2 →
  gene_marginal P people L1 person n = gene_marginal P people L2 person n.
Proof. intros H. unfold gene_marginal. by rewrite H. Qed.

Lemma trait_marginal_Permutation P people L1 L2 person b :
  L1 ≡ₚ L2 →
  trait_marginal P people L1 person b = trait_marginal P people L2 person b.
Proof. intros H. unfold trait_marginal. by rewrite H. Qed.

Lemma marginals_Permutation P people L1 L2 person :
  L1 ≡ₚ L2 → marginals P people L1 person = marginals P people L2 person.
Proof.
  intros H. unfold marginals.
  by rewrite !(gene_marginal_Permutation _ _ _ _ _ _ H),
             !(trait_marginal_Permutation _ _ _ _ _ _ H).
Qed.

Lemma gene_count_1 a q :
  gene_count a q = 1%Z ↔ (q ∉ two_genes a) ∧ (q ∈ one_gene a).
Proof.
  unfold gene_count, get_number_of_genes_by_name.
  repeat case_bool_decide; split; try done; intros [? ?]; done.
Qed.

Lemma gene_count_2 a q : gene_count a q = 2%Z ↔ q ∈ two_genes a.
Proof.
  unfold gene_count, get_number_of_genes_by_name.
  repeat case_bool_decide; split; done.
Qed.

(** The assignment that gives every person of the pedigree the gene count
    [count] and the trait value [has_trait]. *)
Lemma consistent_realises (people : gmap string Person)
    (count : string → Z) (has_trait : string → bool) :
  (∀ n d t, people !! n = Some d → trait d = Some t → has_trait n = t) →
  ∃ a, consistent people a
       ∧ ∀ n, n ∈ dom people →
              is_count (count n) →
              gene_count a n = count n
              ∧ bool_decide (n ∈ have_trait a) = has_trait n.
Proof.
  intros Hev.
  exists {| one_gene := filter (λ n, count n = 1%Z) (dom people);
            two_genes := filter (λ n, count n = 2%Z) (dom people);
            have_trait := filter (λ n, has_trait n = true) (dom people) |}.
  split.
  - unfold consistent. cbn [one_gene two_genes have_trait]. split_and!.
    + intros z [_ ?]%elem_of_filter. done.
    + intros z [_ ?]%elem_of_filter. done.
    + apply elem_of_disjoint.
      intros z [H1 _]%elem_of_filter [H2 _]%elem_of_filter. congruence.
    + intros z [_ ?]%elem_of_filter. done.
    + intros n d t Hn Ht. rewrite <- (Hev n d t Hn Ht).
      destruct (has_trait n) eqn:Hn'; symmetry.
      * apply bool_decide_eq_true_2, elem_of_filter.
        split; [done|]. apply elem_of_dom. eauto.
      * apply bool_decide_eq_false_2.
        intros [? _]%elem_of_filter. congruence.
  - intros n Hn Hcount. split.
    + unfold gene_count, get_number_of_genes_by_name.
      cbn [one_gene two_genes].
      destruct Hcount as [Hc | [Hc | Hc]]; rewrite Hc.
      * rewrite !bool_decide_eq_false_2;
          [done|intros [? _]%elem_of_filter; congruence..].
      * rewrite bool_decide_eq_false_2
          by (intros [? _]%elem_of_filter; congruence).
        rewrite bool_decide_eq_true_2; [done|by apply elem_of_filter].
      * rewrite bool_decide_eq_true_2; [done|by apply elem_of_filter].
    + cbn [have_trait]. destruct (has_trait n) eqn:Hn'.
      * apply bool_decide_eq_true_2. by apply elem_of_filter.
      * apply bool_decide_eq_false_2.
        intros [? _]%elem_of_filter. congruence.
Qed.

(** Two consistent assignments that give every person of the pedigree the
    same gene count and the same trait value are the same assignment. *)
Lemma consistent_determined (people : gmap string Person) a a' :
  consistent people a → consistent people a' →
  (∀ n, n ∈ dom people →
        gene_count a n = gene_count a' n
        ∧ bool_decide (n ∈ have_trait a) = bool_decide (n ∈ have_trait a')) →
  a = a'.
Proof.
  intros (Hog & Htg & Hdisj & Hht & _) (Hog' & Htg' & Hdisj' & Hht' & _) Hsame.
  assert (∀ b b' : Assignment,
            one_gene b ⊆ dom people → one_gene b ## two_genes b →
            (∀ n, n ∈ dom people → gene_count b n = gene_count b' n) →
            one_gene b ⊆ one_gene b') as Hone.
  { intros b b' Hsub Hd Hcount z Hz.
    assert (gene_count b z = 1%Z) as Hc.
    { apply gene_count_1. split; [|done].
      intros Hz'. by apply (proj1 (elem_of_disjoint _ _) Hd z). }
    rewrite Hcount in Hc by auto. by apply gene_count_1 in Hc as [_ ?]. }
  assert (∀ b b' : Assignment,
            two_genes b ⊆ dom people →
            (∀ n, n ∈ dom people → gene_count b n = gene_count b' n) →
            two_genes b ⊆ two_genes b') as Htwo.
  { intros b b' Hsub Hcount z Hz.
    apply gene_count_2. rewrite <- Hcount by auto. by apply gene_count_2. }
  assert (∀ b b' : Assignment,
            have_trait b ⊆ dom people →
            (∀ n, n ∈ dom people →
                  bool_decide (n ∈ have_trait b)
                  = bool_decide (n ∈ have_trait b')) →
            have_trait b ⊆ have_trait b') as Htrait.
  { intros b b' Hsub Hb z Hz.
    apply (bool_decide_eq_true (z ∈ have_trait b')).
    rewrite <- Hb by auto. by apply bool_decide_eq_true_2. }
  destruct a as [og tg ht], a' as [og' tg' ht'].
  cbn [one_gene two_genes have_trait] in *.
  f_equal; apply set_eq; intros z; split.
  - apply (Hone (Build_Assignment og tg ht) (Build_Assignment og' tg' ht'));
      [done..|]. intros n Hn. by apply Hsame.
  - apply (Hone (Build_Assignment og' tg' ht') (Build_Assignment og tg ht));
      [done..|]. intros n Hn. symmetry. by apply Hsame.
  - apply (Htwo (Build_Assignment og tg ht) (Build_Assignment og' tg' ht'));
      [done|]. intros n Hn. by apply Hsame.
  - apply (Htwo (Build_Assignment og' tg' ht') (Build_Assignment og tg ht));
      [done|]. intros n Hn. symmetry. by apply Hsame.
  - apply (Htrait (Build_Assignment og tg ht) (Build_Assignment og' tg' ht'));
      [done|]. intros n Hn. by apply Hsame.
  - apply (Htrait (Build_Assignment og' tg' ht') (Build_Assignment og tg ht));
      [done|]. intros n Hn. symmetry. by apply Hsame.
Qed.

(** C2: the enumeration of [main] holds no assignment twice, and holds
    exactly the assignments over the population that agree with the
    evidence; every choice of a gene count and a trait value for each
    person that agrees with the evidence is the choice of exactly one
    enumerated assignment; so the totals [main] accumulates are, for every
    person and every bucket, the sum of the joint probabilities of the
    consistent assignments that put the person in that bucket (the sum taken
    over any duplicate-free list of all consistent assignments). *)
Theorem enumeration_exactly_once (people : gmap string Person) :
  NoDup (enumeration people)
  ∧ (∀ a, a ∈ enumeration people ↔ consistent people a)
  ∧ (∀ (count : string → Z) (has_trait : string → bool),
       (∀ n, is_count (count n)) →
       (∀ n d t, people !! n = Some d → trait d = Some t → has_trait n = t) →
       ∃ a, (a ∈ enumeration people
             ∧ ∀ n, n ∈ dom people →
                    gene_count a n = count n
                    ∧ bool_decide (n ∈ have_trait a) = has_trait n)
            ∧ ∀ a', a' ∈ enumeration people →
                    (∀ n, n ∈ dom people →
                          gene_count a' n = count n
                          ∧ bool_decide (n ∈ have_trait a') = has_trait n) →
                    a' = a)
  ∧ ∃ totals : gmap string Distribution,
      accumulate PROBS people = Ok totals
      ∧ dom totals = dom people
      ∧ ∀ (L : list Assignment) (person : string),
          NoDup L → (∀ a, a ∈ L ↔ consistent people a) →
          person ∈ dom people →
          totals !! person = Some (marginals PROBS people L person).
Proof.
  split; [apply NoDup_enumeration|].
  split; [apply elem_of_enumeration|].
  split.
  - intros count has_trait Hcount Hev.
    destruct (consistent_realises people count has_trait Hev)
      as (a & Ha & Hvalues).
    exists a. split.
    + split; [by apply elem_of_enumeration|]. intros n Hn. by apply Hvalues.
    + intros a' Ha'%elem_of_enumeration Hvalues'.
      apply (consistent_determined people); [done..|].
      intros n Hn. destruct (Hvalues n Hn (Hcount n)) as [-> ->].
      destruct (Hvalues' n Hn) as [-> ->]. done.
  - eexists. split; [apply accumulate_ok|]. split.
    + apply set_eq. intros i. rewrite !elem_of_dom, map_lookup_imap.
      destruct (people !! i); simpl; split; intros [? ?]; eauto; done.
    + intros L person HL Hall [data Hp]%elem_of_dom.
      rewrite map_lookup_imap, Hp. simpl. f_equal.
      apply marginals_Permutation, NoDup_Permutation;
        [apply NoDup_enumeration|done|].
      intros a. by rewrite elem_of_enumeration, Hall.
Qed.

(** ** Every joint probability is positive *)

Ltac Qc_compute := vm_compute; reflexivity.

Lemma prior_value_pos n : is_count n → 0 < prior_value PROBS n.
Proof. intros H; count_cases H; Qc_compute. Qed.

Lemma trait_value_pos n b : is_count n → 0 < trait_value PROBS n b.
Proof. intros H; count_cases H; destruct b; Qc_compute. Qed.

Lemma child_value_pos mg fg n :
  is_count mg → is_count fg → is_count n → 0 < child_value PROBS mg fg n.
Proof.
  intros Hm Hf Hn. count_cases Hm; count_cases Hf; count_cases Hn; Qc_compute.
Qed.

Lemma person_value_pos a item : 0 < person_value PROBS a item.
Proof.
  unfold person_value, gene_value. apply Qcmult_pos_pos.
  - destruct (known_parents item.2) as [[m f]|].
    + apply child_value_pos; apply gene_count_count.
    + apply prior_value_pos, gene_count_count.
  - apply trait_value_pos, gene_count_count.
Qed.

Lemma product_pos l : Forall (λ x, 0 < x) l → 0 < product l.
Proof.
  induction 1 as [|x l Hx _ IH].
  - rewrite product_nil. Qc_compute.
  - rewrite product_cons. by apply Qcmult_pos_pos.
Qed.

Lemma total_pos l : l ≠ [] → Forall (λ x, 0 < x) l → 0 < total l.
Proof.
  intros Hne Hall. destruct Hall as [|x l Hx Hl]; [done|]. clear Hne.
  rewrite total_cons. revert x Hx. induction Hl as [|y l Hy _ IH]; intros x Hx.
  - rewrite total_nil. by rewrite Qcplus_0_r.
  - rewrite total_cons. apply Qcplus_pos_pos; [done|]. by apply IH.
Qed.

Lemma joint_value_pos people a : 0 < joint_value PROBS people a.
Proof.
  unfold joint_value. apply product_pos, Forall_fmap, Forall_forall.
  intros item _. apply person_value_pos.
Qed.

(** ** The totals of a person's two distributions *)

Lemma gene_total_marginals P people L person :
  gene_total (marginals P people L person) = evidence_probability P people L.
Proof.
  unfold gene_total, marginals, evidence_probability. distribution_fields.
  induction L as [|a L IH].
  - unfold gene_marginal. simpl. rewrite total_nil. ring.
  - rewrite !gene_marginal_cons, fmap_cons, total_cons, <- IH.
    destruct (gene_count_count a person) as [-> | [-> | ->]];
      repeat case_decide; try done; ring.
Qed.

Lemma trait_total_marginals P people L person :
  trait_total (marginals P people L person) = evidence_probability P people L.
Proof.
  unfold trait_total, marginals, evidence_probability. distribution_fields.
  induction L as [|a L IH].
  - unfold trait_marginal. simpl. rewrite total_nil. ring.
  - rewrite !trait_marginal_cons, fmap_cons, total_cons, <- IH.
    destruct (bool_decide (person ∈ have_trait a));
      repeat case_decide; try done; ring.
Qed.

(** ** Some assignment always agrees with the evidence *)

Lemma observed_with_trait_consistent people :
  consistent people
    {| one_gene := ∅; two_genes := ∅;
       have_trait := observed_with_trait people |}.
Proof.
  unfold consistent, observed_with_trait. simpl. split_and!.
  - apply empty_subseteq.
  - apply empty_subseteq.
  - apply disjoint_empty_l.
  - apply subseteq_dom, map_filter_subseteq.
  - intros person data t Hp Ht. symmetry. destruct t.
    + apply bool_decide_eq_true_2, elem_of_dom. exists data.
      by apply map_lookup_filter_Some.
    + apply bool_decide_eq_false_2. intros [d Hd]%elem_of_dom.
      apply map_lookup_filter_Some in Hd as [Hd Htrue]. simpl in Htrue.
      congruence.
Qed.

Lemma enumeration_nonempty people : enumeration people ≠ [].
Proof.
  intros Hnil.
  pose proof (proj2 (elem_of_enumeration people _)
                (observed_with_trait_consistent people)) as Hin.
  rewrite Hnil in Hin. by apply elem_of_nil in Hin.
Qed.

Lemma evidence_probability_pos people :
  0 < evidence_probability PROBS people (enumeration people).
Proof.
  unfold evidence_probability. apply total_pos.
  - intros Hnil%fmap_nil_inv. by apply enumeration_nonempty in Hnil.
  - apply Forall_fmap, Forall_forall. intros a _. apply joint_value_pos.
Qed.

(** [main] never raises: it returns, for every person, the normalized
    marginal sums over the enumeration. *)
Lemma main_ok people :
  main PROBS people
  = Ok (map_imap
          (λ person _,
             Some (normalized
                     (marginals PROBS people (enumeration people) person)))
          people).
Proof.
  unfold main. rewrite accumulate_ok. simpl. rewrite normalize_ok.
  - f_equal. apply map_eq. intros i.
    rewrite lookup_fmap, !map_lookup_imap. by destruct (people !! i).
  - intros person d Hd. rewrite map_lookup_imap in Hd.
    destruct (people !! person); [|done]. simpl in Hd. injection Hd as <-.
    rewrite gene_total_marginals, trait_total_marginals.
    pose proof (evidence_probability_pos people) as Hpos.
    apply Qclt_not_eq in Hpos. split; congruence.
Qed.

(** ** A person whose trait is observed *)

Lemma enumeration_observed people person data t a :
  people !! person = Some data → trait data = Some t →
  a ∈ enumeration people → bool_decide (person ∈ have_trait a) = t.
Proof.
  intros Hp Ht (_ & _ & _ & _ & Hev)%elem_of_enumeration.
  symmetry. by eapply Hev.
Qed.





(** ** A single person observed with the trait *)

Lemma powerset_empty : powerset ∅ = [∅].
Proof. unfold powerset. rewrite elements_empty. reflexivity. Qed.

Lemma powerset_singleton n : powerset {[n]} = [∅; {[n]}].
Proof.
  unfold powerset. rewrite elements_singleton. cbn.
  by rewrite (right_id_L ∅ (∪)).
Qed.

Lemma enumeration_alone n :
  enumeration (alone_with_trait n)
  = [ {| one_gene := ∅; two_genes := ∅; have_trait := {[n]} |};
      {| one_gene := ∅; two_genes := {[n]}; have_trait := {[n]} |};
      {| one_gene := {[n]}; two_genes := ∅; have_trait := {[n]} |} ].
Proof.
  assert (fails_evidence (alone_with_trait n) {[n]} ∅ = true) as Hfails.
  { unfold fails_evidence, alone_with_trait.
    rewrite elements_singleton. simpl. rewrite lookup_singleton_eq. simpl.
    rewrite (bool_decide_eq_false_2 (n ∈ (∅ : gset string)))
      by apply not_elem_of_empty.
    reflexivity. }
  assert (fails_evidence (alone_with_trait n) {[n]} {[n]} = false) as Hpasses.
  { unfold fails_evidence, alone_with_trait.
    rewrite elements_singleton. simpl. rewrite lookup_singleton_eq. simpl.
    rewrite (bool_decide_eq_true_2 (n ∈ ({[n]} : gset string)))
      by by apply elem_of_singleton.
    reflexivity. }
  unfold enumeration.
  replace (dom (alone_with_trait n)) with ({[n]} : gset string)
    by (unfold alone_with_trait; by rewrite dom_singleton_L).
  rewrite powerset_singleton, !bind_cons, Hfails, Hpasses.
  rewrite difference_empty_L, difference_diag_L.
  rewrite powerset_singleton, powerset_empty. reflexivity.
Qed.

Lemma joint_value_alone n a :
  joint_value PROBS (alone_with_trait n) a
  = prior_value PROBS (gene_count a n)
    * trait_value PROBS (gene_count a n) (bool_decide (n ∈ have_trait a)).
Proof.
  unfold joint_value, alone_with_trait. rewrite map_to_list_singleton.
  rewrite fmap_cons, fmap_nil, product_cons, product_nil.
  unfold person_value, gene_value. simpl. ring.
Qed.

Lemma gene_count_alone_0 n ht :
  gene_count {| one_gene := ∅; two_genes := ∅; have_trait := ht |} n = 0%Z.
Proof.
  unfold gene_count, get_number_of_genes_by_name. simpl.
  rewrite !bool_decide_eq_false_2 by apply not_elem_of_empty.
  reflexivity.
Qed.

Lemma gene_count_alone_2 n ht :
  gene_count {| one_gene := ∅; two_genes := {[n]}; have_trait := ht |} n = 2%Z.
Proof.
  unfold gene_count, get_number_of_genes_by_name. simpl.
  rewrite bool_decide_eq_true_2 by by apply elem_of_singleton.
  reflexivity.
Qed.

Lemma gene_count_alone_1 n ht :
  gene_count {| one_gene := {[n]}; two_genes := ∅; have_trait := ht |} n = 1%Z.
Proof.
  unfold gene_count, get_number_of_genes_by_name. simpl.
  rewrite bool_decide_eq_false_2 by apply not_elem_of_empty.
  rewrite bool_decide_eq_true_2 by by apply elem_of_singleton.
  reflexivity.
Qed.

Lemma marginals_alone n :
  marginals PROBS (alone_with_trait n) (enumeration (alone_with_trait n)) n
  = {| d_gene_2 := Q2Qc 0.0065; d_gene_1 := Q2Qc 0.0168;
       d_gene_0 := Q2Qc 0.0096;
       d_trait_True := Q2Qc 0.0329; d_trait_False := 0 |}.
Proof.
  rewrite enumeration_alone. unfold marginals.
  rewrite !gene_marginal_cons, !trait_marginal_cons.
  unfold gene_marginal, trait_marginal.
  rewrite !filter_nil, fmap_nil, total_nil, !joint_value_alone.
  rewrite gene_count_alone_0, gene_count_alone_1, gene_count_alone_2.
  cbn [have_trait].
  rewrite bool_decide_eq_true_2 by by apply elem_of_singleton.
  f_equal; apply Qc_is_canon; vm_compute; reflexivity.
Qed.

(** C9: for a single person without parents who is observed with the
    trait, [main] returns a gene distribution that gives count 2 more than
    0.01, count 1 more than 0.03 and count 0 less than 0.96. *)
Theorem single_person_posterior_shift (n : string) :
  ∃ (probabilities : gmap string Distribution) (d : Distribution),
    main PROBS {[ n := {| name := n; mother := None; father := None;
                          trait := Some true |} ]} = Ok probabilities
    ∧ probabilities !! n = Some d
    ∧ Q2Qc 0.01 < d_gene_2 d
    ∧ Q2Qc 0.03 < d_gene_1 d
    ∧ d_gene_0 d < Q2Qc 0.96.
Proof.
  fold (alone_with_trait n).
  eexists _, _. split; [apply main_ok|].
  rewrite map_lookup_imap.
  replace (alone_with_trait n !! n)
    with (Some {| name := n; mother := None; father := None;
                  trait := Some true |})
    by (symmetry; apply lookup_singleton_eq).
  simpl. split; [reflexivity|].
  rewrite marginals_alone. split_and!; Qc_compute.
Qed.

(** ** The assignments, person by person *)


Lemma elem_of_choices c :
  c ∈ choices ↔ is_count c.1.
Proof.
  unfold choices, is_count. destruct c as [k b]. simpl.
  rewrite !elem_of_cons, elem_of_nil. split.
  - intros [H|[H|[H|[H|[H|[H|[]]]]]]]; injection H as -> ->; auto.
  - intros [-> | [-> | ->]]; destruct b; auto 10.
Qed.

Lemma NoDup_choices : NoDup choices.
Proof.
  unfold choices.
  repeat (apply NoDup_cons; split;
          [rewrite ?elem_of_cons, elem_of_nil; intros H;
           repeat (destruct H as [H|H]; [discriminate H|]); done|]).
  apply NoDup_nil_2.
Qed.

Lemma gene_count_assign_same n c a :
  is_count c.1 → n ∉ one_gene a → n ∉ two_genes a →
  gene_count (assign n c a) n = c.1.
Proof.
  intros Hc H1 H2. unfold gene_count, get_number_of_genes_by_name, assign.
  cbn [one_gene two_genes].
  destruct Hc as [-> | [-> | ->]]; simpl.
  - by rewrite !bool_decide_eq_false_2.
  - rewrite bool_decide_eq_false_2 by done.
    rewrite bool_decide_eq_true_2; [done|].
    apply elem_of_union_l. by apply elem_of_singleton.
  - rewrite bool_decide_eq_true_2; [done|].
    apply elem_of_union_l. by apply elem_of_singleton.
Qed.


Lemma have_trait_assign_same n c a :
  n ∉ have_trait a →
  bool_decide (n ∈ have_trait (assign n c a)) = c.2.
Proof.
  intros Hn. unfold assign. cbn [have_trait]. destruct c as [k []]; simpl.
  - apply bool_decide_eq_true_2, elem_of_union_l. by apply elem_of_singleton.
  - by apply bool_decide_eq_false_2.
Qed.


Lemma add_remove (n : string) (s : gset string) :
  n ∈ s → {[n]} ∪ s ∖ {[n]} = s.
Proof.
  intros Hn. apply set_eq. intros z.
  rewrite elem_of_union, elem_of_difference, elem_of_singleton.
  split; [intros [->|[? _]]; done|].
  intros Hz. destruct (decide (z = n)); auto.
Qed.

Lemma remove_absent (n : string) (s : gset string) : n ∉ s → s ∖ {[n]} = s.
Proof.
  intros Hn. apply set_eq. intros z.
  rewrite elem_of_difference, elem_of_singleton.
  split; [by intros [? _]|]. intros Hz. split; [done|]. by intros ->.
Qed.

Lemma remove_added (n : string) (s : gset string) :
  n ∉ s → ({[n]} ∪ s) ∖ {[n]} = s.
Proof.
  intros Hn. apply set_eq. intros z.
  rewrite elem_of_difference, elem_of_union, elem_of_singleton.
  split; [by intros [[?|?] ?]|]. intros Hz. split; [by right|]. by intros ->.
Qed.

Lemma unassign_assign n c a :
  n ∉ one_gene a → n ∉ two_genes a → n ∉ have_trait a →
  unassign n (assign n c a) = a.
Proof.
  intros H1 H2 H3. unfold unassign, assign. destruct a as [og tg ht].
  cbn [one_gene two_genes have_trait] in *.
  destruct (decide (c.1 = 1%Z)), (decide (c.1 = 2%Z)), (c.2);
    by rewrite ?remove_added, ?remove_absent.
Qed.

Lemma assign_unassign n a :
  one_gene a ## two_genes a →
  assign n (gene_count a n, bool_decide (n ∈ have_trait a)) (unassign n a) = a.
Proof.
  intros Hdisj. unfold assign, unassign. destruct a as [og tg ht].
  cbn [one_gene two_genes have_trait fst snd] in *. f_equal.
  - case_decide as Hc.
    + apply gene_count_1 in Hc as [_ Hc]. by apply add_remove.
    + apply remove_absent. intros Hn. apply Hc, gene_count_1.
      split; [|done]. intros Hn'. by apply (proj1 (elem_of_disjoint _ _) Hdisj n).
  - case_decide as Hc.
    + apply gene_count_2 in Hc. by apply add_remove.
    + apply remove_absent. intros Hn. by apply Hc, gene_count_2.
  - case_bool_decide; [by apply add_remove|by apply remove_absent].
Qed.

Lemma over_assign n c a s :
  n ∉ s → over s a → over ({[n]} ∪ s) (assign n c a).
Proof.
  intros Hn (Hog & Htg & Hht & Hdisj). unfold over, assign.
  cbn [one_gene two_genes have_trait].
  assert (∀ x : gset string, x ⊆ s → x ⊆ {[n]} ∪ s) as Hweak
    by (intros x Hx; by apply union_subseteq_r').
  assert (∀ x : gset string, x ⊆ s → {[n]} ∪ x ⊆ {[n]} ∪ s) as Hmono
    by (intros x Hx; by apply union_mono_l).
  split_and!.
  - case_decide; auto.
  - case_decide; auto.
  - destruct c.2; auto.
  - apply elem_of_disjoint. intros z Hz1 Hz2.
    destruct (decide (c.1 = 1%Z)) as [E1|], (decide (c.1 = 2%Z)) as [E2|].
    + congruence.
    + apply elem_of_union in Hz1 as [->%elem_of_singleton|Hz1].
      * by apply Hn, Htg.
      * by apply (proj1 (elem_of_disjoint _ _) Hdisj z).
    + apply elem_of_union in Hz2 as [->%elem_of_singleton|Hz2].
      * by apply Hn, Hog.
      * by apply (proj1 (elem_of_disjoint _ _) Hdisj z).
    + by apply (proj1 (elem_of_disjoint _ _) Hdisj z).
Qed.

Lemma over_unassign n a s :
  over ({[n]} ∪ s) a → over s (unassign n a).
Proof.
  intros (Hog & Htg & Hht & Hdisj). unfold over, unassign.
  cbn [one_gene two_genes have_trait].
  assert (∀ x : gset string, x ⊆ {[n]} ∪ s → x ∖ {[n]} ⊆ s) as Hsub.
  { intros x Hx z [Hz Hne]%elem_of_difference.
    apply Hx, elem_of_union in Hz as [?|?]; done. }
  split_and!; auto.
  apply elem_of_disjoint. intros z [Hz1 _]%elem_of_difference
    [Hz2 _]%elem_of_difference.
  by apply (proj1 (elem_of_disjoint _ _) Hdisj z).
Qed.





(** ** Summing a person out *)

Lemma total_ext {A : Type} (f g : A → Qc) (l : list A) :
  (∀ x, x ∈ l → f x = g x) → total (f <$> l) = total (g <$> l).
Proof.
  intros Hext. f_equal. apply Forall_fmap_ext, Forall_forall. exact Hext.
Qed.



Lemma total_zero {A : Type} (l : list A) : total ((λ _, 0) <$> l) = 0.
Proof.
  induction l as [|x l IH]; [done|].
  rewrite fmap_cons, total_cons, IH. ring.
Qed.











(** ** Pedigrees without evidence *)





(** ** Alleles *)

(** The count of a child is the sum of two independent transmissions, one
    allele from each parent, and a transmission draws its allele at the
    mutation rate or copies one of the two alleles of the parent. Summed
    over the received alleles, the weight of a set of transmissions does
    not depend on the alleles that are given from outside, whatever the
    parent links are: with cycles, with a person as their own parent, with
    parents who are not in the pedigree. *)
















(** ** Persons as pairs of alleles *)













(** ** Children: from gene counts to alleles *)










(** ** The children's total does not depend on the other persons *)





(** ** From assignments to counts *)










(** ** Persons with and without known parents *)










(** ** The family of the course's example *)

(** [main] prints the numbers the course gives for this family: Harry
    0.0092 / 0.4557 / 0.5351 and 0.2665 / 0.7335, James 0.1976 / 0.5106 /
    0.2918 and 1.0000 / 0.0000, Lily 0.0036 / 0.0136 / 0.9827 and
    0.0000 / 1.0000. *)
Example main_family :
  printed (main PROBS family) "Harry" = Some (92, 4557, 5351, 2665, 7335)%Z
  ∧ printed (main PROBS family) "James" = Some (1976, 5106, 2918, 10000, 0)%Z
  ∧ printed (main PROBS family) "Lily" = Some (36, 136, 9827, 0, 10000)%Z.
Proof. split_and!; vm_compute; reflexivity. Qed.

(** * Further properties of the code *)

(** ** [powerset]: how many subsets *)

Lemma sublists_cons {A : Type} (x : A) (l : list A) :
  NoDup (x :: l) →
  sublists (x :: l) ≡ₚ (cons x <$> sublists l) ++ sublists l.
Proof.
  intros Hnd. pose proof Hnd as [Hx Hl]%NoDup_cons.
  apply NoDup_Permutation.
  - by apply NoDup_sublists.
  - apply NoDup_app. split_and!.
    + apply (NoDup_fmap_2 _). by apply NoDup_sublists.
    + intros y (y' & -> & _)%list_elem_of_fmap Hy%elem_of_sublists.
      apply Hx. eapply elem_of_sublist; [|exact Hy]. left.
    + by apply NoDup_sublists.
  - intros y.
    rewrite elem_of_app, list_elem_of_fmap, !elem_of_sublists, sublist_cons_r.
    split.
    + intros [?|(y' & -> & ?)]; [by right|].
      left. exists y'. by rewrite elem_of_sublists.
    + intros [(y' & -> & ?%elem_of_sublists)|?]; [right; eauto|by left].
Qed.

Lemma length_sublists {A : Type} (l : list A) :
  NoDup l → length (sublists l) = (2 ^ length l)%nat.
Proof.
  induction l as [|x l IH]; intros Hnd; [reflexivity|].
  rewrite (sublists_cons x l Hnd), length_app, length_fmap.
  apply NoDup_cons in Hnd as [_ Hnd]. rewrite (IH Hnd). simpl. lia.
Qed.

(** X1: [powerset s] lists every subset of [s], each exactly once: no list entry
    is repeated, a set is listed exactly when it is a subset of [s], and the
    list has [2 ^ size s] entries. *)
Theorem powerset_every_subset_once (s : gset string) :
  NoDup (powerset s)
  ∧ (∀ x : gset string, x ∈ powerset s ↔ x ⊆ s)
  ∧ length (powerset s) = (2 ^ size s)%nat.
Proof.
  split; [apply NoDup_powerset|]. split; [apply elem_of_powerset|].
  unfold powerset. fold (sublists (elements s)).
  rewrite length_fmap, length_sublists by apply NoDup_elements.
  reflexivity.
Qed.

(** ** The gene model outside and inside the counts 0, 1, 2 *)

Lemma is_count_range (n : Z) : is_count n ↔ (0 ≤ n ≤ 2)%Z.
Proof. unfold is_count. lia. Qed.

Lemma passing_out_of_range P n :
  ¬ is_count n →
  calculate_probability_of_passing_gene_to_child P n = Raise UnboundLocalError.
Proof.
  intros Hn. unfold is_count in Hn.
  destruct n as [|[p|[p|p|]|]|]; try reflexivity; exfalso; auto.
Qed.

Lemma child_out_of_range P mg fg n :
  ¬ (is_count mg ∧ is_count fg ∧ is_count n) →
  calculate_child_gene_probability P mg fg n = Raise UnboundLocalError.
Proof.
  intros Hn. unfold calculate_child_gene_probability.
  destruct (decide (is_count mg)) as [Hm|Hm];
    [|rewrite (passing_out_of_range P mg) by done; reflexivity].
  rewrite (passing_count P mg Hm). simpl.
  destruct (decide (is_count fg)) as [Hf|Hf];
    [|rewrite (passing_out_of_range P fg) by done; reflexivity].
  rewrite (passing_count P fg Hf). simpl.
  assert (¬ is_count n) as Hc by tauto. unfold is_count in Hc.
  destruct n as [|[p|[p|p|]|]|]; try reflexivity; exfalso; auto.
Qed.

(** X2: [calculate_child_gene_probability] returns a number exactly when the two
    parents' counts and the child's count are all among 0, 1 and 2; with any
    other count, for a parent or for the child, the [match] leaves its
    variable unbound and the call raises [UnboundLocalError]. *)
Theorem child_gene_probability_defined_on_counts
    (P : Probs) (mother_genes father_genes child_number_of_genes : Z) :
  ((∃ p : Qc,
      calculate_child_gene_probability
        P mother_genes father_genes child_number_of_genes = Ok p)
   ↔ (0 ≤ mother_genes ≤ 2)%Z ∧ (0 ≤ father_genes ≤ 2)%Z
     ∧ (0 ≤ child_number_of_genes ≤ 2)%Z)
  ∧ ∀ e : exception,
      calculate_child_gene_probability
        P mother_genes father_genes child_number_of_genes = Raise e →
      e = UnboundLocalError.
Proof.
  rewrite <- !is_count_range.
  destruct (decide (is_count mother_genes ∧ is_count father_genes
                    ∧ is_count child_number_of_genes)) as [Hin|Hout].
  - destruct Hin as (Hm & Hf & Hc). rewrite child_count by done.
    split; [|discriminate]. split; [done|eauto].
  - rewrite child_out_of_range by done. split; [|by intros e [= <-]].
    split; [by intros [p ?]|done].
Qed.




(** X4: [calculate_child_gene_probability] treats the two parents alike: with
    the mother's and the father's counts exchanged it gives the same
    result, the same error included. *)
Theorem child_gene_probability_symmetric
    (P : Probs) (mother_genes father_genes child_number_of_genes : Z) :
  calculate_child_gene_probability
    P mother_genes father_genes child_number_of_genes
  = calculate_child_gene_probability
      P father_genes mother_genes child_number_of_genes.
Proof.
  destruct (decide (is_count mother_genes ∧ is_count father_genes
                    ∧ is_count child_number_of_genes)) as [Hin|Hout].
  - destruct Hin as (Hm & Hf & Hc). rewrite !child_count by done.
    f_equal. unfold child_value. count_cases Hc; ring.
  - rewrite !child_out_of_range by tauto. reflexivity.
Qed.

(** ** [joint_probability]: range, what it reads, disjoint pedigrees *)

Lemma prior_value_le_1 n : is_count n → prior_value PROBS n ≤ 1.
Proof. intros H; count_cases H; vm_compute; discriminate. Qed.

Lemma trait_value_le_1 n b : is_count n → trait_value PROBS n b ≤ 1.
Proof. intros H; count_cases H; destruct b; vm_compute; discriminate. Qed.

Lemma child_value_le_1 mg fg n :
  is_count mg → is_count fg → is_count n → child_value PROBS mg fg n ≤ 1.
Proof.
  intros Hm Hf Hn.
  count_cases Hm; count_cases Hf; count_cases Hn; vm_compute; discriminate.
Qed.

Lemma Qcmult_le_1 x y : 0 ≤ x → x ≤ 1 → 0 ≤ y → y ≤ 1 → x * y ≤ 1.
Proof.
  intros Hx0 Hx1 Hy0 Hy1.
  apply Qcle_trans with (1 * y).
  - by apply Qcmult_le_mono_nonneg_r.
  - by rewrite Qcmult_1_l.
Qed.

Lemma person_value_le_1 a item : person_value PROBS a item ≤ 1.
Proof.
  unfold person_value, gene_value.
  apply Qcmult_le_1.
  - apply Qclt_le_weak. destruct (known_parents item.2) as [[m f]|].
    + apply child_value_pos; apply gene_count_count.
    + apply prior_value_pos, gene_count_count.
  - destruct (known_parents item.2) as [[m f]|].
    + apply child_value_le_1; apply gene_count_count.
    + apply prior_value_le_1, gene_count_count.
  - apply Qclt_le_weak, trait_value_pos, gene_count_count.
  - apply trait_value_le_1, gene_count_count.
Qed.

Lemma product_le_1 l : Forall (λ x, 0 < x ∧ x ≤ 1) l → product l ≤ 1.
Proof.
  induction 1 as [|x l [Hx0 Hx1] Hl IH].
  - rewrite product_nil. done.
  - rewrite product_cons. apply Qcmult_le_1; [by apply Qclt_le_weak|done| |done].
    apply Qclt_le_weak, product_pos.
    eapply Forall_impl; [exact Hl|]. by intros ? [? _].
Qed.

Lemma joint_probability_sets P people og tg ht :
  joint_probability P people og tg ht
  = Ok (joint_value P people (Build_Assignment og tg ht)).
Proof. apply (joint_probability_value P people (Build_Assignment og tg ht)). Qed.

(** X5: whatever the pedigree and the three sets, [joint_probability] raises no
    error and returns a number between 0 and 1. Parents that are no
    persons of the pedigree, and names in the sets that are no persons,
    raise no [KeyError]. *)
Theorem joint_probability_is_a_probability
    (people : gmap string Person) (one_gene two_genes have_trait : gset string) :
  ∃ p : Qc,
    joint_probability PROBS people one_gene two_genes have_trait = Ok p
    ∧ 0 ≤ p ∧ p ≤ 1.
Proof.
  exists (joint_value PROBS people
            (Build_Assignment one_gene two_genes have_trait)).
  split; [apply joint_probability_sets|].
  split; [apply Qclt_le_weak, joint_value_pos|].
  unfold joint_value. apply product_le_1, Forall_fmap, Forall_forall.
  intros item _. split; [apply person_value_pos|apply person_value_le_1].
Qed.

Lemma person_value_agree P a a' item :
  gene_count a item.1 = gene_count a' item.1 →
  (item.1 ∈ have_trait a ↔ item.1 ∈ have_trait a') →
  (∀ m f, known_parents item.2 = Some (m, f) →
          gene_count a m = gene_count a' m ∧ gene_count a f = gene_count a' f) →
  person_value P a item = person_value P a' item.
Proof.
  intros Hc Ht Hp. unfold person_value, gene_value.
  rewrite Hc, (bool_decide_ext _ _ Ht).
  destruct (known_parents item.2) as [[m f]|]; [|done].
  destruct (Hp m f eq_refl) as [-> ->]. done.
Qed.

Lemma joint_value_agree P people a a' :
  (∀ person data,
     people !! person = Some data →
     gene_count a person = gene_count a' person
     ∧ (person ∈ have_trait a ↔ person ∈ have_trait a')
     ∧ ∀ m f, known_parents data = Some (m, f) →
              gene_count a m = gene_count a' m
              ∧ gene_count a f = gene_count a' f) →
  joint_value P people a = joint_value P people a'.
Proof.
  intros H. unfold joint_value. f_equal.
  apply Forall_fmap_ext, Forall_forall. intros [person data] Hin.
  apply elem_of_map_to_list in Hin. destruct (H person data Hin) as (? & ? & ?).
  by apply person_value_agree.
Qed.

(** X6: [joint_probability] reads the three sets only through the gene counts
    of the persons and of the parents it looks at, and through the
    membership of the persons in [have_trait]: two triples of sets that
    agree on these give the same result. *)
Theorem joint_probability_reads_counts_and_traits
    (P : Probs) (people : gmap string Person)
    (one_gene two_genes have_trait one_gene' two_genes' have_trait'
       : gset string) :
  (∀ person data,
     people !! person = Some data →
     get_number_of_genes_by_name person one_gene two_genes
     = get_number_of_genes_by_name person one_gene' two_genes'
     ∧ (person ∈ have_trait ↔ person ∈ have_trait')
     ∧ ∀ m f, known_parents data = Some (m, f) →
              get_number_of_genes_by_name m one_gene two_genes
              = get_number_of_genes_by_name m one_gene' two_genes'
              ∧ get_number_of_genes_by_name f one_gene two_genes
                = get_number_of_genes_by_name f one_gene' two_genes') →
  joint_probability P people one_gene two_genes have_trait
  = joint_probability P people one_gene' two_genes' have_trait'.
Proof.
  intros H. rewrite !joint_probability_sets.
  f_equal. by apply joint_value_agree.
Qed.

Lemma joint_probability_reads_counts_and_traits_witness :
  joint_probability PROBS family {["Harry"]} {["James"]} {["James"]}
  = joint_probability PROBS family {["Harry"; "Ron"]} {["James"]}
      {["James"; "Hermione"]}.
Proof.
  apply joint_probability_reads_counts_and_traits.
  unfold family.
  apply map_Forall_insert_2; [|apply map_Forall_insert_2;
                                 [|apply map_Forall_singleton]].
  - split; [reflexivity|]. split.
    + rewrite !elem_of_union, !elem_of_singleton.
      split; [intros [=]|intros [[=]|[=]]].
    + intros m f [= <- <-]. split; reflexivity.
  - split; [reflexivity|]. split.
    + rewrite !elem_of_union, !elem_of_singleton. split; auto.
    + intros m f [=].
  - split; [reflexivity|]. split.
    + rewrite !elem_of_union, !elem_of_singleton.
      split; [intros [=]|intros [[=]|[=]]].
    + intros m f [=].
Defined.

Lemma get_number_without_two person (og tg : gset string) :
  get_number_of_genes_by_name person (og ∖ tg) tg
  = get_number_of_genes_by_name person og tg.
Proof.
  unfold get_number_of_genes_by_name.
  destruct (decide (person ∈ tg)) as [Hin|Hout].
  - by rewrite !(bool_decide_eq_true_2 (person ∈ tg)).
  - rewrite !(bool_decide_eq_false_2 (person ∈ tg)) by done.
    rewrite (bool_decide_ext (person ∈ og ∖ tg) (person ∈ og)); [done|].
    rewrite elem_of_difference. tauto.
Qed.

Lemma update_sets probabilities og tg ht p :
  update probabilities og tg ht p
  = Ok (map_imap
          (λ person d, Some (bump (Build_Assignment og tg ht) p person d))
          probabilities).
Proof. apply (update_ok probabilities (Build_Assignment og tg ht)). Qed.

(** X7: a person who is in [one_gene] and in [two_genes] at once is treated as
    having two copies: [joint_probability] and [update] give the same
    result when the members of [two_genes] are taken out of [one_gene]. *)
Theorem person_in_both_sets_has_two_copies
    (P : Probs) (people : gmap string Person)
    (probabilities : gmap string Distribution)
    (one_gene two_genes have_trait : gset string) (p : Qc) :
  joint_probability P people one_gene two_genes have_trait
  = joint_probability P people (one_gene ∖ two_genes) two_genes have_trait
  ∧ update probabilities one_gene two_genes have_trait p
    = update probabilities (one_gene ∖ two_genes) two_genes have_trait p.
Proof.
  split.
  - rewrite !joint_probability_sets. f_equal. apply joint_value_agree.
    intros person data _. unfold gene_count. simpl.
    rewrite !get_number_without_two. split; [done|]. split; [done|].
    intros m f _. by rewrite !get_number_without_two.
  - rewrite !update_sets. f_equal. apply map_eq. intros i.
    rewrite !map_lookup_imap. destruct (probabilities !! i); [simpl|done].
    unfold bump, gene_count. simpl. by rewrite get_number_without_two.
Qed.




(** ** [update]: one bucket of each distribution *)


Lemma dom_map_imap_Some {V W : Type} (g : string → V → W) (m : gmap string V) :
  dom (map_imap (λ k v, Some (g k v)) m) = dom m.
Proof.
  apply set_eq. intros i. rewrite !elem_of_dom, map_lookup_imap.
  destruct (m !! i); simpl; split; intros [? ?]; eauto; done.
Qed.

(** X9: [update] raises no error and keeps the persons of the table; in every
    person's entry it adds [p] to the gene bucket of the person's count
    and to the trait bucket of the person's membership in [have_trait], and
    leaves the three other buckets as they were. *)
Theorem update_adds_to_one_bucket_of_each
    (probabilities : gmap string Distribution)
    (one_gene two_genes have_trait : gset string) (p : Qc) :
  ∃ updated : gmap string Distribution,
    update probabilities one_gene two_genes have_trait p = Ok updated
    ∧ dom updated = dom probabilities
    ∧ ∀ person d,
        probabilities !! person = Some d →
        let number_of_genes :=
          get_number_of_genes_by_name person one_gene two_genes in
        ∃ d',
          updated !! person = Some d'
          ∧ d_gene_2 d'
            = (if decide (number_of_genes = 2%Z) then d_gene_2 d + p
               else d_gene_2 d)
          ∧ d_gene_1 d'
            = (if decide (number_of_genes = 1%Z) then d_gene_1 d + p
               else d_gene_1 d)
          ∧ d_gene_0 d'
            = (if decide (number_of_genes = 0%Z) then d_gene_0 d + p
               else d_gene_0 d)
          ∧ d_trait_True d'
            = (if decide (person ∈ have_trait) then d_trait_True d + p
               else d_trait_True d)
          ∧ d_trait_False d'
            = (if decide (person ∈ have_trait) then d_trait_False d
               else d_trait_False d + p).
Proof.
  eexists. split; [apply update_sets|]. split; [apply dom_map_imap_Some|].
  intros person d Hd number_of_genes. eexists.
  rewrite map_lookup_imap, Hd. split; [reflexivity|].
  unfold bump, gene_count. simpl. fold number_of_genes.
  destruct (get_number_of_genes_by_name_count person one_gene two_genes)
    as [Hc | [Hc | Hc]]; fold number_of_genes in Hc; rewrite Hc;
    case_bool_decide; repeat case_decide; try done;
    unfold add_trait, add_gene_value; distribution_fields;
    split_and!; reflexivity.
Qed.

(** ** [normalize]: the error, normalized entries, and the scale *)

Lemma normalize_raise (probabilities : gmap string Distribution) person d :
  probabilities !! person = Some d →
  gene_total d = 0 ∨ trait_total d = 0 →
  normalize probabilities = Raise ZeroDivisionError.
Proof.
  intros Hd Hz. unfold normalize.
  rewrite (for_each_ext _ _ _ _ normalize_step_keyed).
  apply keyed_loop_raise.
  - intros k. apply elem_of_keys.
  - intros _ d' e'. apply normalize_entry_raise.
  - exists person, d. split; [apply elem_of_keys; eauto|].
    split; [done|]. by apply normalize_entry_zero.
Qed.




(** ** The table before [normalize] *)

Lemma dom_map_imap_const {V W : Type} (g : string → W) (m : gmap string V) :
  dom (map_imap (λ k _, Some (g k)) m) = dom m.
Proof. apply (dom_map_imap_Some (λ k _, g k)). Qed.


(** ** [main] on any pedigree *)







(** ** Evidence that the tables rule out *)

Lemma product_zero l : 0 ∈ l → product l = 0.
Proof.
  induction l as [|x l IH]; intros Hin; [by apply elem_of_nil in Hin|].
  rewrite product_cons. apply elem_of_cons in Hin as [<-|Hin].
  - ring.
  - rewrite (IH Hin). ring.
Qed.

Lemma main_accumulated P people :
  main P people
  = normalize
      (map_imap
         (λ person _, Some (marginals P people (enumeration people) person))
         people).
Proof. unfold main. by rewrite accumulate_ok. Qed.

(** X15: when the tables give probability 0 to a trait value whatever the gene
    count, and some person is observed with that value, every joint
    probability the loops add is 0, and [main] ends in the
    [ZeroDivisionError] of [normalize]. *)
Theorem main_raises_on_impossible_evidence
    (P : Probs) (people : gmap string Person) (person : string)
    (data : Person) (t : bool) :
  people !! person = Some data →
  trait data = Some t →
  probs_trait P 0 t = Ok 0 →
  probs_trait P 1 t = Ok 0 →
  probs_trait P 2 t = Ok 0 →
  main P people = Raise ZeroDivisionError.
Proof.
  intros Hp Ht H0 H1 H2. rewrite main_accumulated.
  apply normalize_raise
    with person (marginals P people (enumeration people) person).
  { by rewrite map_lookup_imap, Hp. }
  left. rewrite gene_total_marginals. unfold evidence_probability.
  rewrite (total_ext _ (λ _, 0)); [apply total_zero|].
  intros a Ha.
  rewrite (joint_value_delete P people a person data Hp).
  unfold person_value. cbn [fst snd].
  rewrite (enumeration_observed people person data t a Hp Ht Ha).
  assert (trait_value P (gene_count a person) t = 0) as ->; [|ring].
  simpl in H0, H1, H2.
  destruct (gene_count_count a person) as [-> | [-> | ->]]; simpl;
    congruence.
Qed.

Lemma main_raises_on_impossible_evidence_witness :
  main PROBS_trait_impossible (alone_with_trait "Harry")
  = Raise ZeroDivisionError.
Proof.
  apply (main_raises_on_impossible_evidence PROBS_trait_impossible
           (alone_with_trait "Harry") "Harry"
           {| name := "Harry"; mother := None; father := None;
              trait := Some true |} true).
  - apply lookup_singleton_eq.
  - reflexivity.
  - reflexivity.
  - reflexivity.
  - reflexivity.
Defined.

(** ** Pedigrees without cycles and without evidence *)



(** ** A person whose trait is not observed *)











(** ** One more person *)

Lemma elem_of_choices_of d c :
  c ∈ choices_of d ↔ is_count c.1 ∧ ∀ t, trait d = Some t → t = c.2.
Proof.
  unfold choices_of. rewrite list_elem_of_filter, elem_of_choices.
  destruct (trait d) as [t|]; simpl; split.
  - intros [-> ?]. split; [done|]. by intros ? [= ->].
  - intros [? H]. split; [|done]. by apply H.
  - intros [_ ?]. done.
  - intros [? _]. done.
Qed.


Lemma length_choices_of d :
  length (choices_of d) = match trait d with Some _ => 3%nat | None => 6%nat end.
Proof. unfold choices_of. destruct (trait d) as [[]|]; reflexivity. Qed.

Lemma elem_of_extensions z dz L x :
  x ∈ extensions z dz L ↔ ∃ a c, a ∈ L ∧ c ∈ choices_of dz ∧ x = assign z c a.
Proof.
  unfold extensions. rewrite list_elem_of_bind. split.
  - intros (a & (c & ->%list_elem_of_singleton & Hc)%list_elem_of_bind & Ha).
    eauto.
  - intros (a & c & Ha & Hc & ->). exists a. split; [|done].
    apply list_elem_of_bind. exists c. split; [|done].
    by apply list_elem_of_singleton.
Qed.

Lemma NoDup_extensions z dz L :
  NoDup L →
  (∀ a, a ∈ L →
        (z ∉ one_gene a) ∧ (z ∉ two_genes a) ∧ (z ∉ have_trait a)) →
  NoDup (extensions z dz L).
Proof.
  intros Hnd Habs. unfold extensions. apply NoDup_bind; [| |done].
  - intros a1 a2 x Ha1 Ha2
      (c1 & ->%list_elem_of_singleton & _)%list_elem_of_bind
      (c2 & Heq%list_elem_of_singleton & _)%list_elem_of_bind.
    destruct (Habs a1 Ha1) as (? & ? & ?).
    destruct (Habs a2 Ha2) as (? & ? & ?).
    rewrite <- (unassign_assign z c1 a1), <- (unassign_assign z c2 a2) by done.
    by rewrite Heq.
  - intros a Ha. destruct (Habs a Ha) as (? & ? & ?).
    apply NoDup_bind; [| |apply NoDup_filter, NoDup_choices].
    + intros c1 c2 x [Hc1 _]%elem_of_choices_of [Hc2 _]%elem_of_choices_of
        ->%list_elem_of_singleton Heq%list_elem_of_singleton.
      pose proof (gene_count_assign_same z c1 a) as Eg1.
      pose proof (gene_count_assign_same z c2 a) as Eg2.
      pose proof (have_trait_assign_same z c1 a) as Et1.
      pose proof (have_trait_assign_same z c2 a) as Et2.
      rewrite Heq in Eg1, Et1.
      destruct c1 as [k1 b1], c2 as [k2 b2]. simpl in *.
      f_equal.
      * rewrite <- Eg1 by done. by apply Eg2.
      * rewrite <- Et1 by done. by apply Et2.
    + intros c _. apply NoDup_singleton.
Qed.

Lemma length_extensions z dz L :
  length (extensions z dz L) = (length L * length (choices_of dz))%nat.
Proof.
  unfold extensions.
  assert (∀ a, length (c ← choices_of dz; [assign z c a]) = length (choices_of dz))
    as Hinner.
  { intros a. induction (choices_of dz) as [|c cs IHc]; [done|].
    rewrite bind_cons, length_app, IHc. done. }
  induction L as [|a L IH]; [done|].
  rewrite bind_cons, length_app, IH, Hinner. simpl. lia.
Qed.

Lemma consistent_absent people z a :
  people !! z = None → consistent people a →
  (z ∉ one_gene a) ∧ (z ∉ two_genes a) ∧ (z ∉ have_trait a).
Proof.
  intros Hz (Hog & Htg & _ & Hht & _).
  apply not_elem_of_dom in Hz. split_and!; auto.
Qed.

Lemma consistent_over people a :
  consistent people a
  ↔ over (dom people) a ∧ respects_evidence people (have_trait a).
Proof. unfold consistent, over. tauto. Qed.

Lemma respects_evidence_insert people z dz ht ht' :
  people !! z = None →
  (∀ n, n ≠ z → n ∈ ht ↔ n ∈ ht') →
  respects_evidence (<[z := dz]> people) ht
  ↔ respects_evidence people ht'
    ∧ ∀ t, trait dz = Some t → t = bool_decide (z ∈ ht).
Proof.
  intros Hz Hsame. unfold respects_evidence. split.
  - intros H. split.
    + intros n d t Hn Ht.
      assert (n ≠ z) as Hne by (intros ->; congruence).
      rewrite <- (bool_decide_ext _ _ (Hsame n Hne)).
      apply (H n d t); [|done]. by rewrite lookup_insert_ne.
    + intros t Ht. apply (H z dz t); [|done]. apply lookup_insert_eq.
  - intros [H Hdz] n d t Hn Ht.
    apply lookup_insert_Some in Hn as [[<- <-]|[Hne Hn]]; [by apply Hdz|].
    rewrite (bool_decide_ext _ _ (Hsame n (not_eq_sym Hne))).
    by apply (H n d t).
Qed.

Lemma have_trait_assign_iff z c a n :
  n ≠ z → n ∈ have_trait (assign z c a) ↔ n ∈ have_trait a.
Proof.
  intros Hne. unfold assign. cbn [have_trait].
  destruct c as [k []]; cbn [snd]; [|done].
  rewrite elem_of_union, elem_of_singleton. tauto.
Qed.

(** The consistent assignments of the pedigree with [z] added are those of
    the pedigree, each with the values of [z] that agree with what is
    observed of [z]. *)
Lemma enumeration_insert people z dz :
  people !! z = None →
  enumeration (<[z := dz]> people) ≡ₚ extensions z dz (enumeration people).
Proof.
  intros Hz.
  assert (z ∉ dom people) as Hz' by by apply not_elem_of_dom.
  apply NoDup_Permutation.
  - apply NoDup_enumeration.
  - apply NoDup_extensions; [apply NoDup_enumeration|].
    intros a Ha%elem_of_enumeration. by apply consistent_absent with people.
  - intros x. rewrite elem_of_enumeration, elem_of_extensions.
    rewrite consistent_over, dom_insert_L. split.
    + intros [Hover Hev].
      apply (respects_evidence_insert people z dz _
               (have_trait (unassign z x))) in Hev as [Hev Hdz]; [|done|].
      2: { intros n Hne. simpl.
           rewrite elem_of_difference, elem_of_singleton. tauto. }
      exists (unassign z x), (gene_count x z, bool_decide (z ∈ have_trait x)).
      split_and!.
      * apply elem_of_enumeration, consistent_over. split; [|done].
        by apply over_unassign.
      * apply elem_of_choices_of. split; [apply gene_count_count|done].
      * symmetry. apply assign_unassign. by destruct Hover as (_ & _ & _ & ?).
    + intros (a & c & Ha%elem_of_enumeration & [Hc Hdz]%elem_of_choices_of & ->).
      destruct (consistent_absent people z a Hz Ha) as (? & ? & ?).
      apply consistent_over in Ha as [Hover Hev]. split.
      * by apply over_assign.
      * apply (respects_evidence_insert people z dz _ (have_trait a));
          [done| |].
        -- intros n Hne. by apply have_trait_assign_iff.
        -- split; [done|]. intros t Ht.
           rewrite have_trait_assign_same by done. by apply Hdz.
Qed.

Lemma enumeration_empty :
  enumeration ∅
  = [ {| one_gene := ∅; two_genes := ∅; have_trait := ∅ |} ].
Proof.
  unfold enumeration. rewrite dom_empty_L, powerset_empty. simpl.
  unfold fails_evidence. rewrite elements_empty. simpl.
  rewrite (difference_diag_L (∅ : gset string)), powerset_empty. reflexivity.
Qed.

(** X18: the loops of [main] call [joint_probability] and [update] once for
    each assignment of the enumeration, and the enumeration has three
    entries for each person (the gene counts), times two for each person
    whose trait is not observed. *)
Theorem enumeration_length (P : Probs) (people : gmap string Person) :
  accumulate P people
  = for_each (accumulate_step P people) (enumeration people)
             ((λ _, initial_distribution) <$> people)
  ∧ length (enumeration people)
    = (3 ^ size people
       * 2 ^ size (filter (λ item : string * Person, trait item.2 = None)
                     people))%nat.
Proof.
  split; [apply accumulate_enumeration|].
  induction people as [|z dz people Hz IH] using map_ind.
  - rewrite enumeration_empty, map_filter_empty, !map_size_empty. reflexivity.
  - rewrite (enumeration_insert people z dz Hz), length_extensions, IH.
    rewrite length_choices_of, map_size_insert_None by done.
    destruct (trait dz) as [t|] eqn:Ht.
    + rewrite map_filter_insert_False by (simpl; congruence).
      rewrite delete_id by done. simpl. lia.
    + rewrite map_filter_insert_True by done.
      rewrite map_size_insert_None
        by (apply map_lookup_filter_None; by left).
      simpl. lia.
Qed.






(** ** Two families with no link between them *)











(** ** Mother and father exchanged *)

Lemma known_parents_swap d :
  known_parents (swap_parents d)
  = (λ mf : string * string, (mf.2, mf.1)) <$> known_parents d.
Proof.
  unfold known_parents, swap_parents. cbn [mother father].
  destruct (mother d) as [m|], (father d) as [f|]; try done.
  by destruct (recorded (Some m)), (recorded (Some f)).
Qed.

Lemma child_value_comm P mg fg n :
  child_value P mg fg n = child_value P fg mg n.
Proof.
  unfold child_value. destruct n as [|[p|[p|p|]|]|]; ring.
Qed.

Lemma person_value_swap P a q d :
  person_value P a (q, swap_parents d) = person_value P a (q, d).
Proof.
  unfold person_value, gene_value. cbn [fst snd].
  rewrite known_parents_swap.
  destruct (known_parents d) as [[m f]|]; [|done].
  simpl. by rewrite child_value_comm.
Qed.

Lemma joint_value_swap P people a :
  joint_value P (swap_parents <$> people) a = joint_value P people a.
Proof.
  unfold joint_value. rewrite map_to_list_fmap, <- list_fmap_compose.
  f_equal. apply list_fmap_ext. intros _ [q d] _. apply person_value_swap.
Qed.

Lemma existsb_pointwise {A : Type} (f g : A → bool) (l : list A) :
  (∀ x, f x = g x) → existsb f l = existsb g l.
Proof. intros H. induction l as [|x l IH]; simpl; by rewrite ?H, ?IH. Qed.

Lemma enumeration_swap people :
  enumeration (swap_parents <$> people) = enumeration people.
Proof.
  unfold enumeration. rewrite dom_fmap_L.
  apply list_bind_ext; [|done]. intros ht.
  assert (fails_evidence (swap_parents <$> people) (dom people) ht
          = fails_evidence people (dom people) ht) as ->; [|done].
  unfold fails_evidence. apply existsb_pointwise. intros person.
  rewrite lookup_fmap. by destruct (people !! person).
Qed.

(** X21: [main] treats the two parents alike: with the mother and the father of
    every person exchanged it returns the same result, whatever the
    tables. *)
Theorem main_ignores_which_parent_is_which
    (P : Probs) (people : gmap string Person) :
  main P (swap_parents <$> people) = main P people.
Proof.
  unfold main. rewrite !accumulate_ok, enumeration_swap. simpl. f_equal.
  apply map_eq. intros i. rewrite !map_lookup_imap, lookup_fmap.
  destruct (people !! i); [simpl|done]. f_equal.
  unfold marginals, gene_marginal, trait_marginal.
  by rewrite !(list_fmap_ext (joint_value P (swap_parents <$> people))
                 (joint_value P people) _
                 (λ _ a _, joint_value_swap P people a)).
Qed.

(** ** [load_data], and the program from the rows to the table *)

Lemma elem_of_names rows n :
  n ∈ row_name <$> rows ↔ is_Some (last_row_named rows n).
Proof.
  unfold last_row_named. rewrite last_is_Some, list_elem_of_fmap. split.
  - intros (row & -> & Hrow) Hnil.
    assert (row ∈ filter (λ r, row_name r = row_name row) rows) as Hin
      by by apply list_elem_of_filter.
    rewrite Hnil in Hin. by apply elem_of_nil in Hin.
  - intros Hne.
    destruct (filter (λ row, row_name row = n) rows) as [|row l] eqn:Hf;
      [done|].
    assert (row ∈ filter (λ row, row_name row = n) rows) as Hin
      by (rewrite Hf; left).
    apply list_elem_of_filter in Hin as [<- Hin]. eauto.
Qed.

Lemma last_row_named_name rows n row :
  last_row_named rows n = Some row → row_name row = n.
Proof.
  intros Hlast%last_Some_elem_of. by apply list_elem_of_filter in Hlast as [? _].
Qed.

Lemma load_data_ok rows :
  ∃ data : gmap string Person,
    load_data rows = Ok data
    ∧ ∀ n, data !! n = person_of_row <$> last_row_named rows n.
Proof.
  destruct (load_data_loop rows ∅) as (data & Hloop & Hlookup).
  exists data. split; [exact Hloop|]. intros n. rewrite Hlookup.
  destruct (last_row_named rows n); [done|]. apply lookup_empty.
Qed.

(** X22: [load_data] keeps these invariants: the persons of the dictionary are
    the names of the rows; every person is stored under the person's own
    [name]; and no [mother] or [father] is the empty string, a blank field
    having become [None]. *)
Theorem load_data_invariants (rows : list Row) :
  ∃ data : gmap string Person,
    load_data rows = Ok data
    ∧ dom data = list_to_set (row_name <$> rows)
    ∧ ∀ n d,
        data !! n = Some d →
        name d = n ∧ mother d ≠ Some "" ∧ father d ≠ Some "".
Proof.
  destruct (load_data_ok rows) as (data & Hload & Hlookup).
  exists data. split; [done|]. split.
  - apply set_eq. intros n.
    rewrite elem_of_dom, elem_of_list_to_set, elem_of_names, Hlookup.
    by rewrite fmap_is_Some.
  - intros n d Hd. rewrite Hlookup in Hd.
    destruct (last_row_named rows n) as [row|] eqn:Hrow; [|done].
    simpl in Hd. injection Hd as <-.
    split; [by apply last_row_named_name with rows|].
    unfold person_of_row, or_None. cbn [mother father].
    split; case_bool_decide; congruence.
Qed.

(** X23: the program from the rows of the file to the table: whatever the rows,
    [load_data] and then [main] raise no error, and the table has one entry
    for each name of the file. *)
Theorem program_returns_a_table_for_every_file (rows : list Row) :
  ∃ (people : gmap string Person) (probabilities : gmap string Distribution),
    load_data rows = Ok people
    ∧ main PROBS people = Ok probabilities
    ∧ dom probabilities = list_to_set (row_name <$> rows).
Proof.
  destruct (load_data_ok rows) as (people & Hload & Hlookup).
  eexists people, _. split; [done|]. split; [apply main_ok|].
  rewrite dom_map_imap_const. apply set_eq. intros n.
  rewrite elem_of_dom, elem_of_list_to_set, elem_of_names, Hlookup.
  by rewrite fmap_is_Some.
Qed.
